(** * Retrieval-augmented Telegram bot: chunker, retriever and handlers

  A shallow embedding of [src/rag/embedder.py], [src/rag/retriever.py] and
  the handlers of [src/bot.py] that read or write the shared state,
  followed by the properties of the specification that concern them
  (Part II) and by further properties read off the code (Part III).
  The modules [OS] and [Transport] embed the same functions with the
  failures of the disk, of the store and of the reply written out.

  Conventions.
  - A Python [str] is a list of Unicode code points ([N]).
  - A Python [int] is a [Z]; indices may be negative and are normalised
    exactly as CPython normalises slice and [rfind] bounds.
  - A [while] loop is run with fuel; [None] means that the fuel ran out
    before the loop condition became false.
  - An exception is a value [Raise e] of the type [result]. *)

From Stdlib Require Import ZArith Ascii String Lia.
From stdpp Require Import base tactics option list gmap pretty.

Local Open Scope Z_scope.

(* ===================================================================== *)
(** * Part I: definitions                                                 *)
(* ===================================================================== *)

(** ** Python values and built-ins *)

Module Py.

Abbreviation char := N (only parsing).
Abbreviation str := (list N) (only parsing).

(** A literal of the source, as code points. *)
Definition lit (s : string) : str := N_of_ascii <$> list_ascii_of_string s.

Definition nl : str := [10%N].

(** [len(s)] *)
Definition len {A} (s : list A) : Z := Z.of_nat (length s).

(** Truthiness of a sequence: [if s:] *)
Definition truthy {A} (s : list A) : bool :=
  match s with [] => false | _ :: _ => true end.

(** Normalisation of one slice bound against a sequence of length [n]
    (step 1), as [PySlice_AdjustIndices] does. *)
Definition adjust_index (n i : Z) : Z :=
  if i <? 0 then Z.max (i + n) 0 else Z.min i n.

(** [s[i:j]] *)
Definition slice {A} (s : list A) (i j : Z) : list A :=
  let a := adjust_index (len s) i in
  let b := adjust_index (len s) j in
  take (Z.to_nat (b - a)) (drop (Z.to_nat a) s).

(** [s[i:]] *)
Definition slice_from {A} (s : list A) (i : Z) : list A :=
  drop (Z.to_nat (adjust_index (len s) i)) s.

(** [s[:j]] *)
Definition slice_to {A} (s : list A) (j : Z) : list A :=
  take (Z.to_nat (adjust_index (len s) j)) s.

Fixpoint starts_with (sub s : str) : bool :=
  match sub, s with
  | [], _ => true
  | _ :: _, [] => false
  | c :: sub', d :: s' => (c =? d)%N && starts_with sub' s'
  end.

(** Candidates [lo + n - 1], ..., [lo], highest first. *)
Fixpoint rfind_scan (s sub : str) (lo n : nat) : Z :=
  match n with
  | O => -1
  | S n' =>
      if starts_with sub (drop (lo + n') s) then Z.of_nat (lo + n')
      else rfind_scan s sub lo n'
  end.

(** [s.rfind(sub, i, j)]: the bounds are adjusted as CPython's
    [ADJUST_INDICES] does (the end is clamped to the length, the start
    is not), then the highest match inside the window is returned. *)
Definition rfind (s sub : str) (i j : Z) : Z :=
  let e := if len s <? j then len s
           else if j <? 0 then Z.max (j + len s) 0 else j in
  let a := if i <? 0 then Z.max (i + len s) 0 else i in
  if e - a <? len sub then -1
  else rfind_scan s sub (Z.to_nat a) (Z.to_nat (e - a - len sub + 1)).

(** [str.isspace] on one code point: the characters [str.strip()]
    removes. *)
Definition is_space (c : char) : bool :=
  ((9 <=? c) && (c <=? 13) || (28 <=? c) && (c <=? 32)
   || (c =? 133) || (c =? 160) || (c =? 5760)
   || (8192 <=? c) && (c <=? 8202)
   || (c =? 8232) || (c =? 8233) || (c =? 8239) || (c =? 8287)
   || (c =? 12288))%N.

Fixpoint lstrip (s : str) : str :=
  match s with
  | [] => []
  | c :: s' => if is_space c then lstrip s' else s
  end.

Definition rstrip (s : str) : str := reverse (lstrip (reverse s)).

(** [s.strip()] *)
Definition strip (s : str) : str := rstrip (lstrip s).

(** [sep.join(parts)] *)
Fixpoint join (sep : str) (parts : list str) : str :=
  match parts with
  | [] => []
  | [p] => p
  | p :: rest => p ++ sep ++ join sep rest
  end.

(** [f"{i}"] for a non-negative [int]. *)
Definition str_of_nat (i : nat) : str := lit (pretty i).

Definition ends_with (s suffix : str) : bool :=
  bool_decide (drop (length s - length suffix) s = suffix).

(** Exceptions that the modelled code raises or lets through. *)
Inductive exn : Type :=
| FileNotFoundError (msg : str)
| DuplicateIDError
| BackendError (msg : str)
| ValueError (msg : str)
| OSError (msg : str).

Inductive result (A : Type) : Type :=
| Ok (a : A)
| Raise (e : exn).
Arguments Ok {A} a.
Arguments Raise {A} e.

Definition is_ok {A} (r : result A) : bool :=
  match r with Ok _ => true | Raise _ => false end.

End Py.
Import Py.

(** ** [rag/embedder.py] *)

Module Embedder.

(** The cut position of one window: lines 71-83 of [chunk_text]. *)
Definition chunk_end (text : str) (chunk_size start : Z) : Z :=
  let end_ := start + chunk_size in
  if end_ <? len text then
    let para_break := rfind text (nl ++ nl) start end_ in
    if para_break >? start + chunk_size / 2 then para_break
    else
      let sent_break := rfind text (lit ". ") start end_ in
      if sent_break >? start + chunk_size / 2 then sent_break + 1
      else end_
  else end_.

(** One iteration of the [while] loop on the state [(start, chunks)]. *)
Definition chunk_step (text : str) (chunk_size overlap : Z)
    (st : Z * list str) : Z * list str :=
  let '(start, chunks) := st in
  let end_ := chunk_end text chunk_size start in
  let chunk := strip (slice text start end_) in
  let chunks' := if truthy chunk then chunks ++ [chunk] else chunks in
  (if end_ <? len text then end_ - overlap else end_, chunks').

(** [while start < len(text): ...] *)
Fixpoint chunk_loop (fuel : nat) (text : str) (chunk_size overlap : Z)
    (st : Z * list str) : option (list str) :=
  if st.1 <? len text then
    match fuel with
    | O => None
    | S fuel' =>
        chunk_loop fuel' text chunk_size overlap
          (chunk_step text chunk_size overlap st)
    end
  else Some st.2.

Definition chunk_text (fuel : nat) (text : str) (chunk_size overlap : Z)
    : option (list str) :=
  if len text <=? chunk_size then
    Some (if truthy (strip text) then [strip text] else [])
  else chunk_loop fuel text chunk_size overlap (0, []).

(** [chunk_text(content)] as [load_documents] calls it, with the default
    [chunk_size=500] and [overlap=50].  With these parameters every
    iteration moves [start] forward, so [length text] iterations are
    enough: the result below is never the fall-back value (lemma
    [chunk_text_default_returns]). *)
Definition chunk_text_default (text : str) : list str :=
  default [] (chunk_text (S (length text)) text 500 50).

(** A regular UTF-8 text file of a directory: its name and its decoded
    content. *)
Record File := { file_name : str; file_content : str }.

(** The file system as [load_documents] observes it when every entry of
    the directory can be opened and read: a path either does not exist
    ([None]) or is a directory with its entries in the order in which
    [glob] yields them.  Entries that cannot be read and paths that are
    not directories are covered by [OS.Disk] and [OS.load_documents]
    below, of which [load_documents] is the readable case (lemma
    [load_documents_readable]). *)
Definition FileSystem := str -> option (list File).

(** [Path.glob("*.md")] on one entry name. *)
Definition glob_md (name : str) : bool := ends_with name (lit ".md").

(** [PurePath.stem]: the name without its last suffix (a leading or a
    final dot does not start a suffix). *)
Definition stem (name : str) : str :=
  let i := rfind name (lit ".") 0 (len name) in
  if (0 <? i) && (i <? len name - 1) then slice_to name i else name.

(** The dictionary with keys ['content'], ['source'] and ['chunk_id']. *)
Record Document := { content : str; source : str; chunk_id : str }.

(** [enumerate(xs)] *)
Definition enumerate {A} (xs : list A) : list (nat * A) :=
  zip (seq 0 (length xs)) xs.

(** The inner [for i, chunk in enumerate(chunks)] loop. *)
Definition append_chunks (f : File) (documents : list Document)
    (chunks : list str) : list Document :=
  fold_left
    (fun documents '(i, chunk) =>
       documents ++
       [ {| content := chunk;
            source := file_name f;
            chunk_id := stem (file_name f) ++ lit "_" ++ str_of_nat i |} ])
    (enumerate chunks) documents.

Definition load_documents (fs : FileSystem) (data_dir : str)
    : result (list Document) :=
  match fs data_dir with
  | None =>
      Raise (FileNotFoundError
               (lit "Data directory '" ++ data_dir ++ lit "' not found."))
  | Some files =>
      Ok (fold_left
            (fun documents f =>
               if glob_md (file_name f)
               then append_chunks f documents
                      (chunk_text_default (file_content f))
               else documents)
            files [])
  end.

End Embedder.

(** ** [rag/retriever.py] *)

Module Retriever.
Import Embedder.

Record Metadata := { meta_source : str; meta_chunk_id : str }.

(** One record of the collection, stored under its id. *)
Record Entry (vector : Type) := {
  entry_embedding : vector;
  entry_document : str;
  entry_metadata : Metadata;
}.
Arguments entry_embedding {vector} _.
Arguments entry_document {vector} _.
Arguments entry_metadata {vector} _.

(** One row of a query answer: document, metadata, distance. *)
Record Hit (float : Type) := {
  hit_document : str;
  hit_metadata : Metadata;
  hit_distance : float;
}.
Arguments hit_document {float} _.
Arguments hit_metadata {float} _.
Arguments hit_distance {float} _.

(** The external engines behind the retriever: the sentence-transformer
    model and the nearest-neighbour query of the vector store
    ([collection.query] with one query embedding, which reads the
    collection and may fail).  Floats stay abstract; [one_minus d] is
    the float [1 - d]. *)
Class Engines := {
  vector : Type;
  float : Type;
  encode : str -> vector;
  one_minus : float -> float;
  nearest : gmap str (Entry vector) -> vector -> Z -> result (list (Hit float));
}.

Section model.
Context `{Engines}.

(** [Embedder.embed] and [Embedder.embed_batch]: the model encodes a
    batch element by element. *)
Definition embed (text : str) : vector := encode text.
Definition embed_batch (texts : list str) : list vector := encode <$> texts.

(** The dictionary that [search] returns for one hit. *)
Record SearchResult := {
  res_content : str;
  res_source : str;
  res_chunk_id : str;
  res_distance : float;
  res_relevance_score : float;
}.

(** The retriever object: the collection (id to record) and the
    query-embedding cache. *)
Record t := {
  collection : gmap str (Entry vector);
  query_cache : gmap str vector;
}.

(** [collection.count()] *)
Definition count (c : gmap str (Entry vector)) : Z := Z.of_nat (size c).

(** [collection.get()["ids"]] *)
Definition get_ids (c : gmap str (Entry vector)) : list str :=
  (map_to_list c).*1.

(** [collection.delete(ids=ids)] *)
Definition delete_ids (ids : list str) (c : gmap str (Entry vector))
    : gmap str (Entry vector) :=
  foldr delete c ids.

(** One record of a batch handed to [collection.add]: a record whose id
    is already stored is left as it is. *)
Definition add_one (c : gmap str (Entry vector))
    (x : str * (vector * (str * Metadata))) : gmap str (Entry vector) :=
  let '(id, (e, (d, m))) := x in
  match c !! id with
  | Some _ => c
  | None =>
      <[id := {| entry_embedding := e; entry_document := d;
                 entry_metadata := m |}]> c
  end.

(** [collection.add(ids, embeddings, documents, metadatas)] on a batch
    within the store's maximum batch size: a batch with a repeated id is
    refused; otherwise its records are stored one by one.  The limit
    on the batch size is in [OS.collection_add] below. *)
Definition collection_add (ids : list str) (embeddings : list vector)
    (documents : list str) (metadatas : list Metadata)
    (c : gmap str (Entry vector)) : result (gmap str (Entry vector)) :=
  if bool_decide (NoDup ids) then
    Ok (fold_left add_one
          (zip ids (zip embeddings (zip documents metadatas))) c)
  else Raise DuplicateIDError.

Definition set_collection (c : gmap str (Entry vector)) (r : t) : t :=
  {| collection := c; query_cache := query_cache r |}.

Definition set_query_cache (q : gmap str vector) (r : t) : t :=
  {| collection := collection r; query_cache := q |}.

(** [Retriever.index_documents]: the returned value or exception, and the
    retriever afterwards. *)
Definition index_documents (fs : FileSystem) (data_dir : str)
    (force_reindex : bool) (r : t) : result Z * t :=
  if (count (collection r) >? 0) && negb force_reindex then
    (Ok (count (collection r)), r)
  else
    let r1 :=
      if force_reindex && (count (collection r) >? 0) then
        let existing_ids := get_ids (collection r) in
        if truthy existing_ids
        then set_collection (delete_ids existing_ids (collection r)) r
        else r
      else r in
    match load_documents fs data_dir with
    | Raise e => (Raise e, r1)
    | Ok documents =>
        if negb (truthy documents) then (Ok 0, r1)
        else
          let ids := chunk_id <$> documents in
          let contents := content <$> documents in
          let metadatas :=
            (fun doc => {| meta_source := source doc;
                           meta_chunk_id := chunk_id doc |}) <$> documents in
          let embeddings := embed_batch contents in
          match collection_add ids embeddings contents metadatas
                  (collection r1) with
          | Raise e => (Raise e, r1)
          | Ok c => (Ok (len documents), set_collection c r1)
          end
    end.

(** The formatting loop of [search]. *)
Definition format_results (hits : list (Hit float)) : list SearchResult :=
  (fun h => {| res_content := hit_document h;
               res_source := meta_source (hit_metadata h);
               res_chunk_id := meta_chunk_id (hit_metadata h);
               res_distance := hit_distance h;
               res_relevance_score := one_minus (hit_distance h) |}) <$> hits.

(** [Retriever.search] *)
Definition search (query : str) (top_k : Z) (use_cache : bool) (r : t)
    : result (list SearchResult) * t :=
  let '(query_embedding, r1) :=
    match (if use_cache then query_cache r !! query else None) with
    | Some cached => (cached, r)
    | None =>
        let e := embed query in
        (e, if use_cache
            then set_query_cache (<[query := e]> (query_cache r)) r
            else r)
    end in
  match nearest (collection r1) query_embedding top_k with
  | Raise e => (Raise e, r1)
  | Ok hits => (Ok (format_results hits), r1)
  end.

(** [Retriever.get_document_count] *)
Definition get_document_count (r : t) : Z := count (collection r).

(** [Retriever.clear_cache] *)
Definition clear_cache (r : t) : t := set_query_cache ∅ r.

End model.
End Retriever.

(** ** [rag/llm.py]: the generation back end *)

Module LLM.

(** The abstract base class [BaseLLM]; a call either returns text or
    raises. *)
Class BaseLLM := {
  generate : str -> str -> result str;
  describe_image : list Byte.byte -> str -> result str;
}.

End LLM.

(** ** [bot.py]: the handlers that write the conversation history *)

Module Bot.
Import Embedder Retriever LLM.

(** The two settings of [config] that the handlers read. *)
Record Config := {
  top_k_results : Z;
  max_history_per_user : Z;
}.

(** One entry of a user's history. *)
Record Turn := {
  turn_query : str;
  turn_answer : str;
  turn_sources : list str;
}.

Section model.
Context `{Engines} `{BaseLLM}.

(** The process state the handlers share: the global [retriever], the
    global [message_history], and [context.user_data["last_sources"]] of
    each user. *)
Record State := {
  retriever : Retriever.t;
  message_history : gmap Z (list Turn);
  last_sources : gmap Z (list SearchResult);
}.

(** What the handler sends back with [reply_text]; the wording and the
    Markdown layout of the messages are left out. *)
Inductive Reply :=
| ReplyUsage
| ReplyNoResults
| ReplyAnswer (answer : str) (sources : list str)
| ReplyAskError
| ReplyImage (description : str)
| ReplyImageError.

(** [context_text] of [ask] *)
Definition context_text (results : list SearchResult) : str :=
  join (nl ++ nl ++ lit "---" ++ nl ++ nl)
    ((fun r => lit "[Source: " ++ res_source r ++ lit "]" ++ nl ++ res_content r)
       <$> results).

(** [history_context] of [ask] *)
Definition history_context (cfg : Config) (user_id : Z)
    (history : gmap Z (list Turn)) : str :=
  match history !! user_id with
  | Some h =>
      if truthy h then
        let history_items := slice_from h (- max_history_per_user cfg) in
        nl ++ nl ++ lit "Recent conversation:" ++ nl ++
        join nl
          ((fun h => lit "Q: " ++ turn_query h ++ nl ++ lit "A: " ++
                     slice_to (turn_answer h) 200 ++ lit "...")
             <$> history_items)
      else []
  | None => []
  end.

(** [message_history[user_id].append(turn)] on the [defaultdict(list)]. *)
Definition history_append (user_id : Z) (turn : Turn)
    (history : gmap Z (list Turn)) : gmap Z (list Turn) :=
  <[user_id := default [] (history !! user_id) ++ [turn]]> history.

(** The [if len(...) > N: ... = ...[-N:]] statement of [ask]; it runs
    after [history_append], so the key is present. *)
Definition history_trim (cfg : Config) (user_id : Z)
    (history : gmap Z (list Turn)) : gmap Z (list Turn) :=
  let h := default [] (history !! user_id) in
  if len h >? max_history_per_user cfg
  then <[user_id := slice_from h (- max_history_per_user cfg)]> history
  else history.

(** The handler [ask] for the user [user_id] and the words [args] after
    the command. *)
Definition ask (cfg : Config) (user_id : Z) (args : list str) (st : State)
    : Reply * State :=
  if negb (truthy args) then (ReplyUsage, st)
  else
    let query := join (lit " ") args in
    match search query (top_k_results cfg) true (retriever st) with
    | (Raise _, r) =>
        (ReplyAskError,
         {| retriever := r;
            message_history := message_history st;
            last_sources := last_sources st |})
    | (Ok results, r) =>
        if negb (truthy results) then
          (ReplyNoResults,
           {| retriever := r;
              message_history := message_history st;
              last_sources := last_sources st |})
        else
          let sources' := <[user_id := results]> (last_sources st) in
          let full_context :=
            context_text results ++
            history_context cfg user_id (message_history st) in
          match generate query full_context with
          | Raise _ =>
              (ReplyAskError,
               {| retriever := r;
                  message_history := message_history st;
                  last_sources := sources' |})
          | Ok answer =>
              let turn := {| turn_query := query;
                             turn_answer := answer;
                             turn_sources := res_source <$> results |} in
              (ReplyAnswer answer (res_source <$> results),
               {| retriever := r;
                  message_history :=
                    history_trim cfg user_id
                      (history_append user_id turn (message_history st));
                  last_sources := sources' |})
          end
    end.

(** The handler [process_image] when the description can be delivered;
    [download] is the outcome of fetching the photo ([get_file] and
    [download_as_bytearray]).  [Transport.process_image] below also
    covers a [reply_text] that fails. *)
Definition process_image (user_id : Z) (args : list str)
    (download : result (list Byte.byte)) (st : State) : Reply * State :=
  match download with
  | Raise _ => (ReplyImageError, st)
  | Ok image_bytes =>
      let custom_prompt := if truthy args then join (lit " ") args else [] in
      match describe_image image_bytes custom_prompt with
      | Raise _ => (ReplyImageError, st)
      | Ok description =>
          let turn := {| turn_query := lit "[Image uploaded]";
                         turn_answer := description;
                         turn_sources := [lit "image_description"] |} in
          (ReplyImage description,
           {| retriever := retriever st;
              message_history :=
                history_append user_id turn (message_history st);
              last_sources := last_sources st |})
      end
  end.

(** The stored history of one user ([[]] when the user has none). *)
Definition history_of (user_id : Z) (st : State) : list Turn :=
  default [] (message_history st !! user_id).

End model.
End Bot.

(** ** Vocabulary of the properties *)

(** The definitions below are not part of the program; they only name
    what the properties of Part II say about it. *)

Module Vocabulary.
Import Embedder Bot.

(** [c] occurs in [s] as a contiguous piece. *)
Definition substring (c s : str) : Prop := exists l r, s = l ++ c ++ r.

(** [c] neither starts nor ends with a whitespace character. *)
Definition trimmed (c : str) : Prop :=
  (forall x, head c = Some x -> is_space x = false) /\
  (forall x, last c = Some x -> is_space x = false).

(** The three ways in which a window is cut. *)
Inductive cut (text : str) (cs s : Z) : Z -> Prop :=
| cut_raw : cut text cs s (s + cs)
| cut_para :
    s + cs < len text ->
    rfind text (nl ++ nl) s (s + cs) > s + cs / 2 ->
    cut text cs s (rfind text (nl ++ nl) s (s + cs))
| cut_sent :
    s + cs < len text ->
    rfind text (lit ". ") s (s + cs) > s + cs / 2 ->
    cut text cs s (rfind text (lit ". ") s (s + cs) + 1).

(** A chunk of [text]: non-empty, without surrounding whitespace, the
    trimmed form of a slice of [text] (hence a contiguous piece of it). *)
Definition chunk_of (text c : str) : Prop :=
  c <> [] /\ trimmed c /\
  (exists i j, c = strip (slice text i j)) /\ substring c text.

(** What the specification asks of one returned chunk, the length bound
    being kept for a non-negative [chunk_size]. *)
Definition chunk_wf (text : str) (chunk_size : Z) (c : str) : Prop :=
  c <> [] /\ trimmed c /\
  (0 <= chunk_size -> len c <= chunk_size) /\
  (exists i j, c = strip (slice text i j)) /\ substring c text.

(** The entry appended for chunk number [i] of the file [f]. *)
Definition document_of (f : File) (i : nat) (chunk : str) : Document :=
  {| content := chunk;
     source := file_name f;
     chunk_id := stem (file_name f) ++ lit "_" ++ str_of_nat i |}.

(** The entries of one file: its chunks, numbered from 0. *)
Definition file_documents (f : File) : list Document :=
  imap (document_of f) (chunk_text_default (file_content f)).

(** The effect of one recorded turn on a history under the window [n]:
    append, then keep the last [n] entries if there are more. *)
Definition push (n : Z) (h : list Turn) (t : Turn) : list Turn :=
  let h' := h ++ [t] in
  if len h' >? n then slice_from h' (- n) else h'.

Section runs.
Context `{Retriever.Engines} `{LLM.BaseLLM}.

(** [ask] on [args] in the state [st] reaches the back end, which
    answers; [t] is the turn that is recorded. *)
Definition answered (cfg : Config) (user_id : Z) (args : list str)
    (st : State) (t : Turn) : Prop :=
  args <> [] /\
  exists results r answer,
    Retriever.search (join (lit " ") args) (top_k_results cfg) true
      (retriever st) = (Ok results, r) /\
    results <> [] /\
    LLM.generate (join (lit " ") args)
      (context_text results ++
       history_context cfg user_id (message_history st)) = Ok answer /\
    t = {| turn_query := join (lit " ") args;
           turn_answer := answer;
           turn_sources := Retriever.res_source <$> results |}.

(** A run of successive answered queries of one user, with the turns
    recorded on the way. *)
Inductive answered_run (cfg : Config) (user_id : Z)
    : State -> list Turn -> State -> Prop :=
| run_done st : answered_run cfg user_id st [] st
| run_ask st args t ts st' :
    answered cfg user_id args st t ->
    answered_run cfg user_id (ask cfg user_id args st).2 ts st' ->
    answered_run cfg user_id st (t :: ts) st'.

End runs.

End Vocabulary.

(** ** Concrete engines and back ends for the scenarios *)

Module Scenario.
Import Embedder Retriever LLM Bot.

(** A small store: a text is embedded as its length, distances are
    integers, and a query is answered with the first [top_k] records. *)
Definition engines : Engines :=
  {| vector := Z;
     float := Z;
     encode := fun text => len text;
     one_minus := fun d => 1 - d;
     nearest := fun c v top_k =>
       Ok ((fun x : str * Entry Z =>
              {| hit_document := entry_document x.2;
                 hit_metadata := entry_metadata x.2;
                 hit_distance := Z.abs (entry_embedding x.2 - v) |})
             <$> take (Z.to_nat top_k) (map_to_list c)) |}.

(** A back end that answers, and one that is down. *)
Definition llm_up : BaseLLM :=
  {| generate := fun _ _ => Ok (lit "Twenty days.");
     describe_image := fun _ _ => Ok (lit "A cat.") |}.

Definition llm_down : BaseLLM :=
  {| generate := fun _ _ => Raise (BackendError (lit "unreachable"));
     describe_image := fun _ _ => Raise (BackendError (lit "unreachable")) |}.

(** The text of the sliding-window scenario. *)
Definition alphabet15 : str := lit "abcdefghijklmno".

Definition cfg : Config := {| top_k_results := 3; max_history_per_user := 3 |}.

(** The data directory of the specification's scenario. *)
Definition policy_fs : FileSystem :=
  fun path =>
    if decide (path = lit "data") then
      Some [ {| file_name := lit "policy.md";
                file_content := lit "Employees get 20 days of annual leave." |} ]
    else None.

Definition empty_retriever : @Retriever.t engines :=
  {| collection := ∅; query_cache := ∅ |}.

(** The retriever after indexing [policy_fs]. *)
Definition indexed_retriever : @Retriever.t engines :=
  (@index_documents engines policy_fs (lit "data") false empty_retriever).2.

Definition turn (n : nat) : Turn :=
  {| turn_query := lit "question " ++ str_of_nat n;
     turn_answer := lit "answer " ++ str_of_nat n;
     turn_sources := [lit "policy.md"] |}.

(** A running bot with nothing cached and no history. *)
Definition fresh_state : @State engines :=
  {| retriever := indexed_retriever;
     message_history := ∅;
     last_sources := ∅ |}.

(** A running bot in which user 7 has a full history window. *)
Definition full_state : @State engines :=
  {| retriever := indexed_retriever;
     message_history := {[ 7 := [turn 1; turn 2; turn 3] ]};
     last_sources := ∅ |}.

(** What a search for ["leave days"] returns on [fresh_state]. *)
Definition leave_results : list (@SearchResult engines) :=
  [ @Build_SearchResult engines
      (lit "Employees get 20 days of annual leave.")
      (lit "policy.md") (lit "policy_0") 28 (-27) ].

End Scenario.

(** ** [bot.py]: the handlers around photos and sources *)

Module Handlers.
Import Embedder Retriever LLM Bot.

(** [s.replace("\n", " ")] *)
Definition replace_newlines (s : str) : str :=
  (fun c => if (c =? 10)%N then 32%N else c) <$> s.

(** [f"{z}"] for an [int]. *)
Definition str_of_Z (z : Z) : str := lit (pretty z).

(** The snippet of [sources]:
    [source["content"][:150].replace("\n", " ") + "..."]. *)
Definition snippet (content : str) : str :=
  replace_newlines (slice_to content 150) ++ lit "...".

Section model.
Context `{Engines} `{BaseLLM}.

(** [int(score * 100)] on the abstract floats. *)
Variable percent : float -> Z.

(** The two lines that [sources] adds for the [i]-th result. *)
Definition source_lines (i : nat) (source : SearchResult) : str :=
  (str_of_nat i ++ lit ". " ++ res_source source ++ lit " (Relevance: " ++
   str_of_Z (percent (res_relevance_score source)) ++ lit "%)" ++ nl) ++
  (lit "   " ++ snippet (res_content source) ++ nl ++ nl).

(** ["📚 Sources from last answer:\n\n"] *)
Definition sources_header : str :=
  [128218%N] ++ lit " Sources from last answer:" ++ nl ++ nl.

(** What [sources] replies: the hint that there are none, or the
    listing. *)
Inductive SourcesReply :=
| SourcesNone
| SourcesListing (response : str).

(** The handler [sources]; [enumerate(last_sources, 1)] counts from 1. *)
Definition sources (user_id : Z) (st : State) : SourcesReply :=
  let last := default [] (last_sources st !! user_id) in
  if negb (truthy last) then SourcesNone
  else
    SourcesListing
      (fold_left
         (fun response '(i, source) => response ++ source_lines (S i) source)
         (enumerate last) sources_header).

(** The handlers' state together with [context.user_data
    ["waiting_for_image"]] of each user. *)
Record Session := {
  bot : State;
  waiting_for_image : gmap Z bool;
}.

(** What [image_command] and [handle_photo] reply: the outcome of
    [process_image], the request to send an image, or the hint to use
    [/image]. *)
Inductive PhotoReply :=
| PhotoProcessed (reply : Reply)
| PhotoSendImage
| PhotoUseCommand.

(** The handler [image_command]; [replied_photo] is the download outcome
    of the photo of the message replied to, if there is one. *)
Definition image_command (user_id : Z) (args : list str)
    (replied_photo : option (result (list Byte.byte))) (s : Session)
    : PhotoReply * Session :=
  match replied_photo with
  | Some download =>
      let out := process_image user_id args download (bot s) in
      (PhotoProcessed out.1,
       {| bot := out.2; waiting_for_image := waiting_for_image s |})
  | None =>
      (PhotoSendImage,
       {| bot := bot s;
          waiting_for_image := <[user_id := true]> (waiting_for_image s) |})
  end.

(** The handler [handle_photo]; a photo message carries no command
    arguments. *)
Definition handle_photo (user_id : Z)
    (download : result (list Byte.byte)) (s : Session)
    : PhotoReply * Session :=
  if default false (waiting_for_image s !! user_id) then
    let out := process_image user_id [] download (bot s) in
    (PhotoProcessed out.1,
     {| bot := out.2;
        waiting_for_image := <[user_id := false]> (waiting_for_image s) |})
  else (PhotoUseCommand, s).

End model.
End Handlers.

(** ** Further vocabulary *)

Module Coverage.
Import Embedder Retriever.

(** Position [p] of [text] lies inside an occurrence of one of the
    chunks. *)
Definition covered (text : str) (chunks : list str) (p : nat) : Prop :=
  exists c l r,
    c ∈ chunks /\ text = l ++ c ++ r /\
    (length l <= p < length l + length c)%nat.

(** The stems of the entries that [load_documents] reads. *)
Definition md_stems (files : list File) : list str :=
  (fun f => stem (file_name f))
    <$> filter (fun f => Is_true (glob_md (file_name f))) files.

(** The documents that [load_documents] yields for a directory. *)
Definition loaded (files : list File) : list Document :=
  concat ((fun f => if glob_md (file_name f)
                    then Vocabulary.file_documents f else []) <$> files).

(** The record under which [index_documents] stores a document. *)
Definition entry_of `{Engines} (doc : Document) : Entry vector :=
  {| entry_embedding := embed (content doc);
     entry_document := content doc;
     entry_metadata := {| meta_source := source doc;
                          meta_chunk_id := chunk_id doc |} |}.

End Coverage.

(** ** The operating system and the store as they can fail *)

Module OS.
Import Embedder Retriever Handlers.

(** An entry of a directory: a file that opens and decodes, or an entry
    on which [open] or [read] raises (a dangling link, a directory, a
    file without permission or with a bad encoding). *)
Inductive DirEntry :=
| Readable (f : File)
| Unreadable (name : str) (e : exn).

Definition entry_name (entry : DirEntry) : str :=
  match entry with
  | Readable f => file_name f
  | Unreadable name _ => name
  end.

(** What a path that exists is: a directory with its entries in the
    order in which [glob] yields them, or something else (a regular
    file), on which [glob] yields nothing. *)
Inductive Node :=
| Directory (entries : list DirEntry)
| NotDirectory.

Definition Disk := str -> option Node.

(** The disk on which every entry of every directory can be read. *)
Definition readable (fs : FileSystem) : Disk :=
  fun path => (fun files => Directory (Readable <$> files)) <$> fs path.

(** One round of the [for file_path in data_path.glob("*.md")] loop:
    [open] and [read] are not guarded, so what they raise leaves
    [load_documents]. *)
Definition load_entry (documents : list Document) (entry : DirEntry)
    : result (list Document) :=
  if glob_md (entry_name entry) then
    match entry with
    | Readable f =>
        Ok (append_chunks f documents (chunk_text_default (file_content f)))
    | Unreadable _ e => Raise e
    end
  else Ok documents.

Fixpoint load_entries (entries : list DirEntry) (documents : list Document)
    : result (list Document) :=
  match entries with
  | [] => Ok documents
  | entry :: rest =>
      match load_entry documents entry with
      | Ok documents' => load_entries rest documents'
      | Raise e => Raise e
      end
  end.

(** [load_documents] of [embedder.py] on a disk. *)
Definition load_documents (disk : Disk) (data_dir : str)
    : result (list Document) :=
  match disk data_dir with
  | None =>
      Raise (FileNotFoundError
               (lit "Data directory '" ++ data_dir ++ lit "' not found."))
  | Some NotDirectory => Ok []
  | Some (Directory entries) => load_entries entries []
  end.

Section store.
Context `{Engines}.

(** [client.get_max_batch_size()] of the store. *)
Variable max_batch_size : Z.

(** [collection.add(ids, embeddings, documents, metadatas)]: a batch with
    a repeated id is refused, then a batch above the maximum batch size
    is refused; otherwise its records are stored one by one. *)
Definition collection_add (ids : list str) (embeddings : list vector)
    (documents : list str) (metadatas : list Metadata)
    (c : gmap str (Entry vector)) : result (gmap str (Entry vector)) :=
  if bool_decide (NoDup ids) then
    if len ids >? max_batch_size then
      Raise (ValueError
               (lit "Batch size " ++ str_of_Z (len ids) ++
                lit " exceeds maximum batch size " ++
                str_of_Z max_batch_size))
    else
      Ok (fold_left add_one
            (zip ids (zip embeddings (zip documents metadatas))) c)
  else Raise DuplicateIDError.

(** [Retriever.index_documents] on a disk and a store with a batch
    limit. *)
Definition index_documents (disk : Disk) (data_dir : str)
    (force_reindex : bool) (r : Retriever.t) : result Z * Retriever.t :=
  if (count (collection r) >? 0) && negb force_reindex then
    (Ok (count (collection r)), r)
  else
    let r1 :=
      if force_reindex && (count (collection r) >? 0) then
        let existing_ids := get_ids (collection r) in
        if truthy existing_ids
        then set_collection (delete_ids existing_ids (collection r)) r
        else r
      else r in
    match load_documents disk data_dir with
    | Raise e => (Raise e, r1)
    | Ok documents =>
        if negb (truthy documents) then (Ok 0, r1)
        else
          let ids := chunk_id <$> documents in
          let contents := content <$> documents in
          let metadatas :=
            (fun doc => {| meta_source := source doc;
                           meta_chunk_id := chunk_id doc |}) <$> documents in
          let embeddings := embed_batch contents in
          match collection_add ids embeddings contents metadatas
                  (collection r1) with
          | Raise e => (Raise e, r1)
          | Ok c => (Ok (len documents), set_collection c r1)
          end
    end.

End store.
End OS.

(** ** [bot.py]: handlers whose reply may not get through *)

Module Transport.
Import Embedder Retriever LLM Bot.

Section model.
Context `{Engines} `{BaseLLM}.

(** The handler [process_image]; [delivered] tells whether the
    [reply_text] call that sends the description succeeds.  That call
    sits inside the [try] block after the history has been written, so
    when it raises, the [except] branch sends the error message.  The
    reply is the message the handler sends last; the typing indicator
    sent before the [try] block and the sending of the error message
    itself are not part of the model. *)
Definition process_image (delivered : bool) (user_id : Z) (args : list str)
    (download : result (list Byte.byte)) (st : State) : Reply * State :=
  match download with
  | Raise _ => (ReplyImageError, st)
  | Ok image_bytes =>
      let custom_prompt := if truthy args then join (lit " ") args else [] in
      match describe_image image_bytes custom_prompt with
      | Raise _ => (ReplyImageError, st)
      | Ok description =>
          let turn := {| turn_query := lit "[Image uploaded]";
                         turn_answer := description;
                         turn_sources := [lit "image_description"] |} in
          let st' :=
            {| retriever := retriever st;
               message_history :=
                 history_append user_id turn (message_history st);
               last_sources := last_sources st |} in
          if delivered then (ReplyImage description, st')
          else (ReplyImageError, st')
      end
  end.

(** The handler [ask]; [delivered] tells whether the [reply_text] call
    inside the [try] block (the "nothing found" message or the answer)
    succeeds.  The answer is sent after the history has been written
    and trimmed. *)
Definition ask (delivered : bool) (cfg : Config) (user_id : Z)
    (args : list str) (st : State) : Reply * State :=
  if negb (truthy args) then (ReplyUsage, st)
  else
    let query := join (lit " ") args in
    match search query (top_k_results cfg) true (retriever st) with
    | (Raise _, r) =>
        (ReplyAskError,
         {| retriever := r;
            message_history := message_history st;
            last_sources := last_sources st |})
    | (Ok results, r) =>
        if negb (truthy results) then
          (if delivered then ReplyNoResults else ReplyAskError,
           {| retriever := r;
              message_history := message_history st;
              last_sources := last_sources st |})
        else
          let sources' := <[user_id := results]> (last_sources st) in
          let full_context :=
            context_text results ++
            history_context cfg user_id (message_history st) in
          match generate query full_context with
          | Raise _ =>
              (ReplyAskError,
               {| retriever := r;
                  message_history := message_history st;
                  last_sources := sources' |})
          | Ok answer =>
              let turn := {| turn_query := query;
                             turn_answer := answer;
                             turn_sources := res_source <$> results |} in
              (if delivered then ReplyAnswer answer (res_source <$> results)
               else ReplyAskError,
               {| retriever := r;
                  message_history :=
                    history_trim cfg user_id
                      (history_append user_id turn (message_history st));
                  last_sources := sources' |})
          end
    end.

End model.
End Transport.

(** ** A disk with a dangling link *)

Module FailureScenario.


End FailureScenario.

(* ===================================================================== *)
(** * Part II: properties                                                 *)
(* ===================================================================== *)

(** ** Facts about the Python built-ins *)

Module PyFacts.
Import Vocabulary.

Lemma pair_from_fst {A B} (p : A * B) (a : A) : p.1 = a -> p = (a, p.2).
Proof. destruct p. simpl. by intros ->. Qed.

Lemma len_nonneg {A} (s : list A) : 0 <= len s.
Proof. unfold len. lia. Qed.

Lemma len_app {A} (s t : list A) : len (s ++ t) = len s + len t.
Proof. unfold len. rewrite length_app. lia. Qed.

Lemma truthy_true {A} (s : list A) : truthy s = true <-> s <> [].
Proof. destruct s; simpl; split; congruence. Qed.

Lemma truthy_false {A} (s : list A) : truthy s = false <-> s = [].
Proof. destruct s; simpl; split; congruence. Qed.

Lemma adjust_index_range n i : 0 <= n -> 0 <= adjust_index n i <= n.
Proof. intros Hn. unfold adjust_index. destruct (Z.ltb_spec i 0); lia. Qed.

(** Normalising two ordered bounds never widens the gap between them. *)
Lemma adjust_index_gap n i j :
  0 <= n -> i <= j -> adjust_index n j - adjust_index n i <= j - i.
Proof.
  intros Hn Hij. unfold adjust_index.
  destruct (Z.ltb_spec i 0), (Z.ltb_spec j 0); lia.
Qed.

Lemma adjust_index_id n i : 0 <= i <= n -> adjust_index n i = i.
Proof. intros Hi. unfold adjust_index. destruct (Z.ltb_spec i 0); lia. Qed.

Lemma len_slice {A} (s : list A) i j :
  len (slice s i j) =
  Z.max 0 (adjust_index (len s) j - adjust_index (len s) i).
Proof.
  unfold slice.
  pose proof (adjust_index_range (len s) i (len_nonneg s)) as Hi.
  pose proof (adjust_index_range (len s) j (len_nonneg s)) as Hj.
  unfold len in *. rewrite length_take, length_drop. lia.
Qed.

Lemma slice_substring (s : str) i j : substring (slice s i j) s.
Proof.
  unfold slice, substring.
  set (a := Z.to_nat (adjust_index (len s) i)).
  set (k := Z.to_nat _).
  exists (take a s), (drop k (drop a s)).
  by rewrite take_drop, take_drop.
Qed.

Lemma substring_trans (a b c : str) :
  substring a b -> substring b c -> substring a c.
Proof.
  intros (l1 & r1 & ->) (l2 & r2 & ->).
  exists (l2 ++ l1), (r1 ++ r2). by rewrite <- !(assoc_L (++)).
Qed.

(** *** [strip] *)

Lemma lstrip_suffix s : exists l, s = l ++ lstrip s.
Proof.
  induction s as [|c s [l IH]]; simpl.
  - by exists [].
  - destruct (is_space c).
    + exists (c :: l). simpl. by rewrite <- IH.
    + by exists [].
Qed.

Lemma lstrip_head s c r : lstrip s = c :: r -> is_space c = false.
Proof.
  induction s as [|d s IH]; simpl; [done|].
  destruct (is_space d) eqn:Hd; [done|]. by intros [= -> _].
Qed.

Lemma rstrip_prefix s : exists r, s = rstrip s ++ r.
Proof.
  unfold rstrip. destruct (lstrip_suffix (reverse s)) as [l Hl].
  exists (reverse l).
  rewrite <- reverse_app, <- Hl. by rewrite reverse_involutive.
Qed.

Lemma rstrip_last s x : last (rstrip s) = Some x -> is_space x = false.
Proof.
  unfold rstrip. rewrite last_reverse.
  destruct (lstrip (reverse s)) as [|c r] eqn:E; simpl; [done|].
  intros [= ->]. by eapply lstrip_head.
Qed.

Lemma strip_trimmed s : trimmed (strip s).
Proof.
  split; intros x Hx.
  - unfold strip in Hx. destruct (rstrip_prefix (lstrip s)) as [r Hr].
    destruct (rstrip (lstrip s)) as [|c t]; simpl in Hx; [done|].
    injection Hx as ->. by eapply lstrip_head.
  - by eapply rstrip_last.
Qed.

Lemma strip_substring s : substring (strip s) s.
Proof.
  unfold strip, substring.
  destruct (lstrip_suffix s) as [l Hl].
  destruct (rstrip_prefix (lstrip s)) as [r Hr].
  exists l, r. by rewrite <- Hr.
Qed.

Lemma substring_len (c s : str) : substring c s -> len c <= len s.
Proof. intros (l & r & ->). rewrite !len_app. pose proof (len_nonneg l). pose proof (len_nonneg r). lia. Qed.

Lemma len_strip s : len (strip s) <= len s.
Proof. apply substring_len, strip_substring. Qed.

(** *** [rfind] *)

Lemma rfind_scan_range s sub lo n :
  rfind_scan s sub lo n = -1 \/
  Z.of_nat lo <= rfind_scan s sub lo n < Z.of_nat (lo + n).
Proof.
  induction n as [|n IH]; simpl; [by left|].
  destruct (starts_with sub (drop (lo + n) s)); [right; lia|].
  destruct IH as [->|IH]; [by left|right; lia].
Qed.

(** A successful [rfind] lies inside the normalised window. *)
Lemma rfind_range s sub i j :
  rfind s sub i j = -1 \/
  (0 <= rfind s sub i j /\
   adjust_index (len s) i <= rfind s sub i j /\
   (i < 0 -> i + len s <= rfind s sub i j) /\
   rfind s sub i j + len sub <= adjust_index (len s) j).
Proof.
  unfold rfind, adjust_index.
  pose proof (len_nonneg s). pose proof (len_nonneg sub).
  match goal with |- context [rfind_scan s sub ?lo ?n] =>
    pose proof (rfind_scan_range s sub lo n) as Hs end.
  destruct (Z.ltb_spec (len s) j), (Z.ltb_spec j 0), (Z.ltb_spec i 0);
    repeat match goal with
    | |- context [if ?b <? ?c then _ else _] => destruct (Z.ltb_spec b c)
    end; try (by left); (destruct Hs as [->|Hs]; [by left|right; lia]).
Qed.

End PyFacts.
Import Vocabulary PyFacts.

(** ** The chunker *)

Module ChunkFacts.
Import Embedder.

Lemma half_bounds cs : 2 * (cs / 2) <= cs < 2 * (cs / 2) + 2.
Proof. pose proof (Z.div_mod cs 2). pose proof (Z.mod_pos_bound cs 2). lia. Qed.

Lemma chunk_end_cut text cs s : cut text cs s (chunk_end text cs s).
Proof.
  unfold chunk_end.
  destruct (Z.ltb_spec (s + cs) (len text)); [|constructor].
  destruct (Z.gtb_spec (rfind text (nl ++ nl) s (s + cs)) (s + cs / 2)).
  { constructor; lia. }
  destruct (Z.gtb_spec (rfind text (lit ". ") s (s + cs)) (s + cs / 2)).
  { constructor; lia. }
  constructor.
Qed.

Lemma chunk_loop_unfold fuel text cs ov st :
  chunk_loop fuel text cs ov st =
  if st.1 <? len text then
    match fuel with
    | O => None
    | S fuel' => chunk_loop fuel' text cs ov (chunk_step text cs ov st)
    end
  else Some st.2.
Proof. by destruct fuel. Qed.

(** A window that is cut before the end of the text stays before it. *)
Lemma chunk_end_before text cs s :
  0 < len text -> s + cs < len text -> chunk_end text cs s < len text.
Proof.
  intros Hn Hs. pose proof (len_nonneg text) as Hl.
  destruct (chunk_end_cut text cs s) as [|_ Hp|_ Hq]; [done| |].
  - destruct (rfind_range text (nl ++ nl) s (s + cs)) as [->|(_ & _ & _ & H)];
      [lia|].
    pose proof (adjust_index_range (len text) (s + cs) Hl).
    change (len (nl ++ nl)) with 2 in H. lia.
  - destruct (rfind_range text (lit ". ") s (s + cs)) as [->|(_ & _ & _ & H)];
      [lia|].
    pose proof (adjust_index_range (len text) (s + cs) Hl).
    change (len (lit ". ")) with 2 in H. lia.
Qed.

(** *** No progress: [overlap >= chunk_size] *)

(** When the overlap is at least the chunk size, a window that does not
    reach the end of the text is followed by another such window, so the
    loop condition never becomes false. *)
Lemma chunk_loop_stuck fuel text cs ov s chunks :
  0 <= cs -> cs < len text -> cs <= ov -> s + cs < len text ->
  chunk_loop fuel text cs ov (s, chunks) = None.
Proof.
  intros Hcs Hn Hov. revert s chunks.
  induction fuel as [|fuel IH]; intros s chunks Hs;
    rewrite chunk_loop_unfold; simpl;
    (destruct (Z.ltb_spec s (len text)); [|lia]); [done|].
  pose proof (chunk_end_before text cs s ltac:(lia) Hs) as He.
  destruct (Z.ltb_spec (chunk_end text cs s) (len text)); [|lia].
  apply IH. lia.
Qed.

(** *** Progress: [overlap <= chunk_size // 2] *)

Lemma chunk_end_progress text cs s :
  1 <= cs -> s + cs / 2 + 1 <= chunk_end text cs s.
Proof.
  intros Hcs. pose proof (half_bounds cs).
  destruct (chunk_end_cut text cs s); lia.
Qed.

Lemma chunk_loop_returns fuel text cs ov s chunks :
  1 <= cs -> ov <= cs / 2 -> len text - s <= Z.of_nat fuel ->
  exists out, chunk_loop fuel text cs ov (s, chunks) = Some out.
Proof.
  intros Hcs Hov. revert s chunks.
  induction fuel as [|fuel IH]; intros s chunks Hf;
    rewrite chunk_loop_unfold; simpl;
    (destruct (Z.ltb_spec s (len text)); [|by eexists]); [lia|].
  pose proof (chunk_end_progress text cs s Hcs).
  apply IH. destruct (Z.ltb_spec (chunk_end text cs s) (len text)); lia.
Qed.

(** More fuel does not change a result. *)
Lemma chunk_loop_fuel fuel fuel' text cs ov st out :
  chunk_loop fuel text cs ov st = Some out -> (fuel <= fuel')%nat ->
  chunk_loop fuel' text cs ov st = Some out.
Proof.
  revert fuel' st. induction fuel as [|fuel IH]; intros fuel' st;
    rewrite (chunk_loop_unfold _ text), (chunk_loop_unfold fuel' text);
    destruct (st.1 <? len text); try done.
  destruct fuel' as [|fuel']; [lia|]. intros Hr Hle. apply IH; [done|lia].
Qed.

Lemma chunk_text_fuel fuel fuel' text cs ov out :
  chunk_text fuel text cs ov = Some out -> (fuel <= fuel')%nat ->
  chunk_text fuel' text cs ov = Some out.
Proof.
  unfold chunk_text. destruct (_ <=? _); [done|]. apply chunk_loop_fuel.
Qed.

(** The result does not depend on the fuel that was enough to get it. *)
Lemma chunk_text_functional f1 f2 text cs ov out1 out2 :
  chunk_text f1 text cs ov = Some out1 ->
  chunk_text f2 text cs ov = Some out2 -> out1 = out2.
Proof.
  intros H1 H2.
  apply (chunk_text_fuel _ (f1 `max` f2)%nat) in H1; [|lia].
  apply (chunk_text_fuel _ (f1 `max` f2)%nat) in H2; [|lia].
  congruence.
Qed.

(** With the default parameters [chunk_text] returns, and
    [chunk_text_default] is what it returns. *)
Lemma chunk_text_default_returns text :
  chunk_text (S (length text)) text 500 50 = Some (chunk_text_default text).
Proof.
  unfold chunk_text_default.
  destruct (chunk_text _ _ _ _) as [out|] eqn:E; [done|exfalso].
  unfold chunk_text in E. destruct (_ <=? _); [done|].
  destruct (chunk_loop_returns (S (length text)) text 500 50 0 [])
    as [out Hout]; try done; [unfold len; lia|congruence].
Qed.

(** *** What every emitted chunk satisfies *)

Lemma slice_all {A} (s : list A) : slice s 0 (len s) = s.
Proof.
  unfold slice. pose proof (len_nonneg s).
  rewrite !adjust_index_id by lia. simpl. rewrite drop_0.
  apply take_ge. unfold len. lia.
Qed.

Lemma strip_slice_chunk text i j :
  truthy (strip (slice text i j)) = true ->
  chunk_of text (strip (slice text i j)).
Proof.
  intros Ht. split; [by apply truthy_true|].
  split; [apply strip_trimmed|]. split; [by eexists _, _|].
  eapply substring_trans; [apply strip_substring|apply slice_substring].
Qed.

(** The chunks after one iteration: the old ones, possibly followed by
    the trimmed window. *)
Lemma chunk_step_chunks text cs ov s chunks :
  let c := strip (slice text s (chunk_end text cs s)) in
  (chunk_step text cs ov (s, chunks)).2 =
  if truthy c then chunks ++ [c] else chunks.
Proof. done. Qed.

Lemma chunk_step_start text cs ov s chunks :
  (chunk_step text cs ov (s, chunks)).1 =
  if chunk_end text cs s <? len text
  then chunk_end text cs s - ov else chunk_end text cs s.
Proof. done. Qed.

Lemma chunk_loop_chunk_of fuel text cs ov st out :
  Forall (chunk_of text) st.2 ->
  chunk_loop fuel text cs ov st = Some out ->
  Forall (chunk_of text) out.
Proof.
  revert st. induction fuel as [|fuel IH]; intros [s chunks] Hc;
    rewrite chunk_loop_unfold; simpl fst;
    destruct (s <? len text); try done; try (by intros [= <-]).
  apply IH. rewrite chunk_step_chunks. simpl.
  destruct (truthy _) eqn:Ht; [|done].
  apply Forall_app. split; [done|].
  apply Forall_singleton. by apply strip_slice_chunk.
Qed.

(** With [0 <= overlap < chunk_size < len(text)] the start of a window
    never drops below [-1 - chunk_size // 2]; then a failed [rfind]
    (value [-1]) is never taken for a break, and the window holds at
    most [chunk_size] characters. *)
Lemma chunk_end_window text cs ov s :
  0 <= cs -> cs < len text -> ov < cs -> -1 <= s + cs / 2 ->
  len (slice text s (chunk_end text cs s)) <= cs /\
  -1 <= (if chunk_end text cs s <? len text
         then chunk_end text cs s - ov else chunk_end text cs s) + cs / 2.
Proof.
  intros Hcs Hn Hov Hs.
  pose proof (half_bounds cs) as Hh. pose proof (len_nonneg text) as Hl.
  rewrite len_slice.
  pose proof (adjust_index_gap (len text) s (s + cs) Hl ltac:(lia)) as Hgap.
  pose proof (adjust_index_range (len text) (s + cs) Hl) as He.
  pose proof (adjust_index_range (len text) s Hl) as Ha.
  assert (s < 0 -> adjust_index (len text) (s + cs) <= s + len text + 1) as Hneg.
  { intros Hs0. unfold adjust_index.
    destruct (Z.ltb_spec (s + cs) 0); lia. }
  destruct (chunk_end_cut text cs s) as [|_ Hp|_ Hq].
  - split; [lia|]. destruct (Z.ltb_spec (s + cs) (len text)); lia.
  - destruct (rfind_range text (nl ++ nl) s (s + cs))
      as [E|(H0 & H1 & H2 & H3)]; [lia|].
    change (len (nl ++ nl)) with 2 in H3.
    set (p := rfind text (nl ++ nl) s (s + cs)) in *.
    rewrite (adjust_index_id _ p) by lia.
    split; [lia|]. destruct (Z.ltb_spec p (len text)); lia.
  - destruct (rfind_range text (lit ". ") s (s + cs))
      as [E|(H0 & H1 & H2 & H3)]; [lia|].
    change (len (lit ". ")) with 2 in H3.
    set (q := rfind text (lit ". ") s (s + cs)) in *.
    rewrite (adjust_index_id _ (q + 1)) by lia.
    split; [lia|]. destruct (Z.ltb_spec (q + 1) (len text)); lia.
Qed.

Lemma chunk_loop_chunk_len fuel text cs ov s chunks out :
  0 <= cs -> cs < len text -> ov < cs -> -1 <= s + cs / 2 ->
  Forall (fun c => len c <= cs) chunks ->
  chunk_loop fuel text cs ov (s, chunks) = Some out ->
  Forall (fun c => len c <= cs) out.
Proof.
  intros Hcs Hn Hov. revert s chunks.
  induction fuel as [|fuel IH]; intros s chunks Hs Hc;
    rewrite chunk_loop_unfold; simpl fst;
    destruct (s <? len text); try done; try (by intros [= <-]).
  destruct (chunk_end_window text cs ov s) as [Hw Hs']; try done.
  pose proof (chunk_step_chunks text cs ov s chunks) as E2.
  pose proof (chunk_step_start text cs ov s chunks) as E1.
  destruct (chunk_step text cs ov (s, chunks)) as [s' chunks'].
  simpl in E1, E2. subst s' chunks'.
  apply IH; [done|].
  destruct (truthy _); [|done].
  apply Forall_app. split; [done|]. apply Forall_singleton.
  etrans; [apply len_strip|done].
Qed.

(** A returned chunk is never longer than a non-negative [chunk_size]. *)
Lemma chunk_text_chunk_len fuel text cs ov out :
  0 <= cs -> chunk_text fuel text cs ov = Some out ->
  Forall (fun c => len c <= cs) out.
Proof.
  intros Hcs. unfold chunk_text.
  destruct (Z.leb_spec (len text) cs) as [Hle|Hgt].
  - intros [= <-]. destruct (truthy _); [|done].
    apply Forall_singleton. etrans; [apply len_strip|done].
  - destruct (Z.le_gt_cases cs ov) as [Hov|Hov].
    + by rewrite chunk_loop_stuck by lia.
    + apply chunk_loop_chunk_len; try done; try lia.
      pose proof (half_bounds cs). lia.
Qed.

Lemma chunk_text_chunk_of fuel text cs ov out :
  chunk_text fuel text cs ov = Some out -> Forall (chunk_of text) out.
Proof.
  unfold chunk_text. destruct (_ <=? _).
  - intros [= <-]. destruct (truthy _) eqn:Ht; [|done].
    apply Forall_singleton. rewrite <- (slice_all text) at 2.
    apply strip_slice_chunk. by rewrite slice_all.
  - by apply chunk_loop_chunk_of.
Qed.

End ChunkFacts.

(** ** The chunker against the specification *)

Module ChunkSpec.
Import Embedder ChunkFacts Scenario.

(** C2 (code defect): [chunk_text] has no guard for [overlap >=
    chunk_size].  On the 15-character text with [chunk_size = 10] and
    [overlap = 10] no configuration error is raised and the loop never
    ends: whatever the number of iterations allowed, it has not
    returned. *)
Theorem chunk_text_overlap_10_10_never_returns :
  forall fuel, chunk_text fuel alphabet15 10 10 = None.
Proof.
  intros fuel. unfold chunk_text.
  change (len alphabet15 <=? 10) with false. cbv iota.
  apply chunk_loop_stuck; by vm_compute.
Qed.

(** X2: for every text longer than a non-negative [chunk_size] and every
    [overlap >= chunk_size], [chunk_text] never returns: no window ever
    reaches the end of the text. *)
Lemma chunk_text_overlap_ge_size_never_returns fuel text cs ov :
  0 <= cs -> cs < len text -> cs <= ov ->
  chunk_text fuel text cs ov = None.
Proof.
  intros Hcs Hn Hov. unfold chunk_text.
  destruct (Z.leb_spec (len text) cs); [lia|].
  apply chunk_loop_stuck; lia.
Qed.

(** With [chunk_size >= 1] and [overlap <= chunk_size // 2] every window
    moves forward and [chunk_text] returns. *)
Lemma chunk_text_returns text cs ov :
  1 <= cs -> ov <= cs / 2 ->
  exists out, chunk_text (S (length text)) text cs ov = Some out.
Proof.
  intros Hcs Hov. unfold chunk_text. destruct (_ <=? _); [by eexists|].
  apply chunk_loop_returns; [done|done|unfold len; lia].
Qed.

(** C3 (as stated) fails: the trimmed form of [" abc "] has 3 characters,
    which is at most [chunk_size = 4], but the text itself has 5, so the
    window loop runs and returns two chunks. *)
Lemma chunk_text_trimmed_length_counterexample :
  len (strip (lit " abc ")) <= 4 /\
  chunk_text 2 (lit " abc ") 4 1 = Some [lit "abc"; lit "c"] /\
  forall fuel, chunk_text fuel (lit " abc ") 4 1 <> Some [strip (lit " abc ")].
Proof.
  split; [by vm_compute|]. split; [by vm_compute|].
  intros fuel Hf.
  assert (chunk_text 2 (lit " abc ") 4 1 = Some [lit "abc"; lit "c"]) as H2
    by (by vm_compute).
  pose proof (chunk_text_functional _ _ _ _ _ _ _ Hf H2) as E.
  by vm_compute in E.
Qed.

(** C3 (amended): for every text whose length, before trimming, is at
    most [chunk_size], [chunk_text] returns exactly one chunk, the
    trimmed text, or the empty sequence when the trimmed text is
    empty. *)
Theorem chunk_text_short_text fuel text chunk_size overlap :
  len text <= chunk_size ->
  chunk_text fuel text chunk_size overlap =
  Some (if decide (strip text = []) then [] else [strip text]).
Proof.
  intros Hle. unfold chunk_text.
  destruct (Z.leb_spec (len text) chunk_size); [|lia].
  destruct (strip text); by destruct (decide _).
Qed.

Lemma chunk_text_short_text_witness :
  len (lit " abc ") <= 5 /\
  chunk_text 0 (lit " abc ") 5 1 = Some [lit "abc"].
Proof.
  split; [by vm_compute|].
  rewrite (chunk_text_short_text 0 (lit " abc ") 5 1); by vm_compute.
Defined.

(** C8: with [chunk_size = 10] and [overlap = 3] the 15-character text
    is cut into two windows starting at 0 and 7 (an advance of 7); the
    loop stops after the second window; the chunks are the characters
    0-9 and 7-14, so together they cover the text, and the two share
    exactly the three characters 7-9. *)
Theorem chunk_text_scenario_10_3 :
  let text := alphabet15 in
  let c1 := lit "abcdefghij" in
  let c2 := lit "hijklmno" in
  (forall fuel, chunk_text (2 + fuel) text 10 3 = Some [c1; c2]) /\
  chunk_step text 10 3 (0, []) = (7, [c1]) /\
  chunk_step text 10 3 (7, [c1]) = (17, [c1; c2]) /\
  len text <= 17 /\
  c1 = slice text 0 10 /\ c2 = slice text 7 15 /\
  c1 ++ drop 3 c2 = text /\
  drop 7 c1 = take 3 c2 /\ len (take 3 c2) = 3 /\
  slice text 7 10 = take 3 c2.
Proof.
  cbv zeta. split.
  - intros fuel.
    apply (chunk_text_fuel 2); [by vm_compute|apply Nat.le_add_r].
  - repeat split; by vm_compute.
Qed.

(** C9 (as stated) fails on a negative [chunk_size]: with [chunk_size =
    -1] and [overlap = -10] the call on ["abc"] returns the single chunk
    ["ab"], which is longer than [chunk_size]. *)
Lemma chunk_text_negative_size_counterexample :
  chunk_text 1 (lit "abc") (-1) (-10) = Some [lit "ab"] /\
  ~ len (lit "ab") <= -1.
Proof. split; by vm_compute. Qed.

(** C9 (amended): on every input on which [chunk_text] returns, every
    returned chunk is non-empty, has no leading or trailing whitespace,
    is the trimmed form of a slice of the text and so a contiguous piece
    of it, and, when [chunk_size] is not negative, has at most
    [chunk_size] characters. *)
Theorem chunk_text_chunks_wf fuel text chunk_size overlap chunks :
  chunk_text fuel text chunk_size overlap = Some chunks ->
  Forall (chunk_wf text chunk_size) chunks.
Proof.
  intros Hr. apply Forall_forall. intros c Hc.
  pose proof (chunk_text_chunk_of _ _ _ _ _ Hr) as H1.
  rewrite Forall_forall in H1. destruct (H1 c Hc) as (Hne & Ht & Hs & Hsub).
  repeat split; try done; try apply Ht.
  intros Hcs. pose proof (chunk_text_chunk_len _ _ _ _ _ Hcs Hr) as H2.
  rewrite Forall_forall in H2. by apply H2.
Qed.

Lemma chunk_text_chunks_wf_witness :
  chunk_text 2 alphabet15 10 3 = Some [lit "abcdefghij"; lit "hijklmno"] /\
  Forall (chunk_wf alphabet15 10) [lit "abcdefghij"; lit "hijklmno"].
Proof.
  split; [by vm_compute|].
  apply (chunk_text_chunks_wf 2 alphabet15 10 3). by vm_compute.
Defined.

End ChunkSpec.

(** ** Loading documents *)

Module LoadSpec.
Import Embedder ChunkFacts.

Global Instance lit_inj : Inj (=) (=) lit.
Proof.
  intros s t Hst. unfold lit in Hst.
  assert (Inj (=) (=) N_of_ascii) as Hinj.
  { intros a b Hab. by rewrite <- (ascii_N_embedding a), Hab, ascii_N_embedding. }
  apply (inj (fmap N_of_ascii)) in Hst.
  by rewrite <- (string_of_list_ascii_of_string s), Hst,
    string_of_list_ascii_of_string.
Qed.

Global Instance str_of_nat_inj : Inj (=) (=) str_of_nat.
Proof. intros i j Hij. unfold str_of_nat in Hij. by apply (inj lit), (inj pretty) in Hij. Qed.

Lemma append_chunks_from f k chunks documents :
  fold_left
    (fun documents '(i, chunk) =>
       documents ++
       [ {| content := chunk;
            source := file_name f;
            chunk_id := stem (file_name f) ++ lit "_" ++ str_of_nat i |} ])
    (zip (seq k (length chunks)) chunks) documents =
  documents ++ imap (fun i => document_of f (k + i)) chunks.
Proof.
  revert k documents. induction chunks as [|c chunks IH]; intros k documents.
  - simpl. by rewrite app_nil_r.
  - simpl. rewrite IH, <- (assoc_L (++)). simpl.
    rewrite Nat.add_0_r. do 2 f_equal.
    apply imap_ext. intros i x _. simpl. by rewrite Nat.add_succ_r.
Qed.

Lemma append_chunks_imap f documents chunks :
  append_chunks f documents chunks = documents ++ imap (document_of f) chunks.
Proof. apply (append_chunks_from f 0). Qed.

Lemma load_fold files documents :
  fold_left
    (fun documents f =>
       if glob_md (file_name f)
       then append_chunks f documents (chunk_text_default (file_content f))
       else documents)
    files documents =
  documents ++
  concat ((fun f => if glob_md (file_name f) then file_documents f else [])
            <$> files).
Proof.
  revert documents. induction files as [|f files IH]; intros documents; simpl.
  - by rewrite app_nil_r.
  - rewrite IH. destruct (glob_md (file_name f)); simpl; [|done].
    by rewrite append_chunks_imap, <- (assoc_L (++)).
Qed.


Lemma file_documents_ids_NoDup f : NoDup (chunk_id <$> file_documents f).
Proof.
  apply NoDup_alt. intros i j x. unfold file_documents.
  rewrite !list_lookup_fmap, !list_lookup_imap.
  destruct (_ !! i) as [ci|]; [|done]. destruct (_ !! j) as [cj|]; [|done].
  simpl. intros [= <-] [= E]. by simplify_list_eq.
Qed.

Lemma rfind_scan_S s sub lo n :
  rfind_scan s sub lo (S n) =
  if starts_with sub (drop (lo + n) s) then Z.of_nat (lo + n)
  else rfind_scan s sub lo n.
Proof. done. Qed.

Lemma rfind_dot_md base :
  rfind (base ++ lit ".md") (lit ".") 0 (len (base ++ lit ".md")) = len base.
Proof.
  unfold rfind.
  assert (len (base ++ lit ".md") = len base + 3) as Hl by apply len_app.
  pose proof (len_nonneg base). rewrite Hl, Z.ltb_irrefl.
  destruct (Z.ltb_spec (len base + 3) 0); [lia|].
  change (0 <? 0) with false. cbv iota.
  change (len (lit ".")) with 1.
  destruct (Z.ltb_spec (len base + 3 - 0) 1); [lia|].
  replace (Z.to_nat (len base + 3 - 0 - 1 + 1)) with (S (S (S (length base))))
    by (unfold len; lia).
  change (Z.to_nat 0) with 0%nat.
  assert (forall n k, n = (length base + k)%nat ->
            drop (0 + n) (base ++ lit ".md") = drop k (lit ".md")) as Hd.
  { intros n k ->. rewrite Nat.add_0_l. by rewrite drop_app_add'. }
  rewrite rfind_scan_S, (Hd _ 2%nat) by lia.
  change (starts_with (lit ".") (drop 2 (lit ".md"))) with false. cbv iota.
  rewrite rfind_scan_S, (Hd _ 1%nat) by lia.
  change (starts_with (lit ".") (drop 1 (lit ".md"))) with false. cbv iota.
  rewrite rfind_scan_S, (Hd _ 0%nat) by lia.
  change (starts_with (lit ".") (drop 0 (lit ".md"))) with true. cbv iota.
  unfold len. lia.
Qed.

(** [stem] removes the extension of a Markdown file name. *)
Lemma stem_md base : base <> [] -> stem (base ++ lit ".md") = base.
Proof.
  intros Hne. unfold stem. rewrite rfind_dot_md.
  assert (len (base ++ lit ".md") = len base + 3) as Hl by apply len_app.
  assert (0 < len base) as Hpos by (destruct base; [done|unfold len; simpl; lia]).
  destruct (Z.ltb_spec 0 (len base)); [|lia].
  destruct (Z.ltb_spec (len base) (len (base ++ lit ".md") - 1)); [|lia].
  simpl. unfold slice_to.
  rewrite adjust_index_id by lia.
  unfold len. rewrite Nat2Z.id. by rewrite take_app_length.
Qed.



End LoadSpec.

(** ** The retriever against the specification *)

Module RetrieverSpec.
Import Embedder Retriever LoadSpec.

Section facts.
Context `{Engines}.

Lemma add_one_keeps c x k : is_Some (c !! k) -> is_Some (add_one c x !! k).
Proof.
  destruct x as (id & e & d & m). simpl. intros Hk.
  destruct (c !! id) eqn:E; [done|].
  destruct (decide (id = k)) as [->|Hne].
  - by rewrite lookup_insert_eq.
  - by rewrite lookup_insert_ne.
Qed.

Lemma add_one_stores c id e d m : is_Some (add_one c (id, (e, (d, m))) !! id).
Proof.
  simpl. destruct (c !! id) eqn:E; [by rewrite E|].
  by rewrite lookup_insert_eq.
Qed.

Lemma add_all_keeps xs c k :
  is_Some (c !! k) -> is_Some (fold_left add_one xs c !! k).
Proof.
  revert c. induction xs as [|x xs IH]; intros c Hk; [done|].
  simpl. by apply IH, add_one_keeps.
Qed.

Lemma collection_add_fold ids embeddings documents metadatas c c' :
  collection_add ids embeddings documents metadatas c = Ok c' ->
  c' = fold_left add_one (zip ids (zip embeddings (zip documents metadatas))) c.
Proof.
  unfold collection_add. destruct (bool_decide _); [|done].
  intros [= <-]. f_equal.
Qed.

Lemma collection_add_error ids embeddings documents metadatas c e :
  collection_add ids embeddings documents metadatas c = Raise e ->
  e = DuplicateIDError.
Proof.
  unfold collection_add. destruct (bool_decide _); [done|]. by intros [= <-].
Qed.

(** Adding a non-empty batch leaves a non-empty collection. *)
Lemma collection_add_count (documents : list Document) c c' :
  documents <> [] ->
  collection_add (chunk_id <$> documents)
    (embed_batch (content <$> documents)) (content <$> documents)
    ((fun doc => {| meta_source := source doc;
                    meta_chunk_id := chunk_id doc |}) <$> documents) c = Ok c' ->
  0 < count c'.
Proof.
  intros Hne Hadd. apply collection_add_fold in Hadd.
  destruct documents as [|doc documents]; [done|].
  unfold embed_batch in Hadd. rewrite !fmap_cons in Hadd.
  cbn [zip zip_with fold_left] in Hadd.
  match type of Hadd with
  | _ = fold_left _ ?xs (add_one _ (?id, (?e, (?d, ?m)))) =>
      pose proof (add_all_keeps xs _ id (add_one_stores c id e d m)) as Hk
  end.
  rewrite <- Hadd in Hk. apply map_size_ne_0_lookup_2 in Hk.
  unfold count. lia.
Qed.

(** Without [force_reindex] a call either leaves the retriever as it was
    or leaves a non-empty collection. *)
Lemma index_documents_no_force fs data_dir r :
  (index_documents fs data_dir false r).2 = r \/
  0 < count (collection (index_documents fs data_dir false r).2).
Proof.
  unfold index_documents. simpl.
  destruct (count (collection r) >? 0); [by left|]. simpl.
  destruct (load_documents fs data_dir) as [documents|e]; [|by left].
  destruct (truthy documents) eqn:Ht; [|by left]. simpl.
  destruct (collection_add _ _ _ _ _) as [c|e] eqn:Hadd; [|by left].
  right. simpl. eapply collection_add_count; [|done].
  by apply truthy_true.
Qed.

Lemma index_documents_short_circuit fs data_dir r :
  0 < count (collection r) ->
  index_documents fs data_dir false r = (Ok (count (collection r)), r).
Proof.
  intros Hc. unfold index_documents.
  by destruct (Z.gtb_spec (count (collection r)) 0); [|lia].
Qed.

(** C6: on a non-empty index and without [force_reindex],
    [index_documents] changes nothing and returns the entry count; and of
    two successive calls without [force_reindex] (same directory
    content) the second leaves [get_document_count()] as the first left
    it. *)
Theorem index_documents_idempotent fs data_dir r :
  (0 < get_document_count r ->
   index_documents fs data_dir false r = (Ok (get_document_count r), r)) /\
  (let r1 := (index_documents fs data_dir false r).2 in
   get_document_count (index_documents fs data_dir false r1).2 =
   get_document_count r1).
Proof.
  split; [apply index_documents_short_circuit|].
  cbv zeta. destruct (index_documents_no_force fs data_dir r) as [E|Hpos].
  - by rewrite !E.
  - by rewrite (index_documents_short_circuit _ _ _ Hpos).
Qed.

Lemma load_documents_no_md fs data_dir files :
  fs data_dir = Some files ->
  Forall (fun f => glob_md (file_name f) = false) files ->
  load_documents fs data_dir = Ok [].
Proof.
  intros Hfs Hall. unfold load_documents. rewrite Hfs. f_equal.
  rewrite load_fold. simpl. clear Hfs.
  induction Hall as [|f files Hf _ IH]; [done|]. simpl. by rewrite Hf.
Qed.

Lemma search_collection query top_k use_cache r :
  collection (search query top_k use_cache r).2 = collection r.
Proof.
  unfold search.
  destruct (if use_cache then query_cache r !! query else None);
    [|destruct use_cache]; simpl; by destruct (nearest _ _ _).
Qed.

(** C10: [search] and [clear_cache] leave the collection as it is, so
    [get_document_count()] is the same before and after either call;
    [clear_cache] empties the query-embedding cache. *)
Theorem search_and_clear_cache_keep_index query top_k use_cache r :
  collection (search query top_k use_cache r).2 = collection r /\
  get_document_count (search query top_k use_cache r).2 =
    get_document_count r /\
  collection (clear_cache r) = collection r /\
  get_document_count (clear_cache r) = get_document_count r /\
  query_cache (clear_cache r) = ∅.
Proof.
  unfold get_document_count. by rewrite search_collection.
Qed.

End facts.
End RetrieverSpec.

(** ** The handlers against the specification *)

Module BotSpec.
Import Embedder Retriever LLM Bot Vocabulary RetrieverSpec.

Section facts.
Context `{Engines} `{BaseLLM}.

Lemma history_of_append user_id t st r s :
  history_of user_id
    {| retriever := r;
       message_history := history_append user_id t (message_history st);
       last_sources := s |} = history_of user_id st ++ [t].
Proof.
  unfold history_of, history_append. simpl. by rewrite lookup_insert_eq.
Qed.

Lemma history_trim_append cfg user_id t history :
  default [] (history_trim cfg user_id (history_append user_id t history)
              !! user_id) =
  push (max_history_per_user cfg) (default [] (history !! user_id)) t.
Proof.
  unfold history_trim, history_append, push.
  rewrite lookup_insert_eq. simpl.
  destruct (_ >? _); by rewrite lookup_insert_eq.
Qed.

Lemma history_trim_append_other cfg user_id other t history :
  other <> user_id ->
  history_trim cfg user_id (history_append user_id t history) !! other =
  history !! other.
Proof.
  intros Hne. unfold history_trim, history_append.
  destruct (_ >? _); by rewrite !lookup_insert_ne.
Qed.

(** With a window of at least one entry, [push] keeps the last [n]
    entries of the extended history. *)
Lemma push_window n h t :
  1 <= n ->
  push n h t = drop (length (h ++ [t]) - Z.to_nat n) (h ++ [t]).
Proof.
  intros Hn. unfold push, slice_from, adjust_index.
  destruct (Z.gtb_spec (len (h ++ [t])) n) as [Hgt|Hle].
  - destruct (Z.ltb_spec (- n) 0); [|lia]. f_equal. unfold len in *. lia.
  - replace (length (h ++ [t]) - Z.to_nat n)%nat with 0%nat
      by (unfold len in *; lia).
    done.
Qed.

Lemma push_length n h t : 1 <= n -> len (push n h t) <= n.
Proof.
  intros Hn. rewrite push_window by done.
  unfold len. rewrite length_drop. lia.
Qed.

(** With a window of zero the slice [h[-0:]] is the whole list, so
    nothing is ever dropped. *)
Lemma push_zero h t : push 0 h t = h ++ [t].
Proof.
  unfold push. destruct (_ >? _); [|done].
  unfold slice_from. simpl Z.opp.
  by rewrite adjust_index_id by (pose proof (len_nonneg (h ++ [t])); lia).
Qed.

Lemma drop_tail_snoc {A} (k : nat) (l : list A) (t : A) :
  (1 <= k)%nat ->
  drop (length (drop (length l - k) l ++ [t]) - k)
    (drop (length l - k) l ++ [t]) =
  drop (length (l ++ [t]) - k) (l ++ [t]).
Proof.
  intros Hk. rewrite !length_app, length_drop. simpl length.
  destruct (decide (length l < k)%nat) as [Hlt|Hge].
  - replace (length l - k)%nat with 0%nat by lia. rewrite drop_0.
    f_equal. lia.
  - rewrite !drop_app_le by (rewrite ?length_drop; lia).
    rewrite drop_drop. do 2 f_equal. lia.
Qed.

(** Successive turns recorded by [ask] on top of [h]: what is left is
    the last [n] entries of the whole sequence, in order. *)
Lemma foldl_push_window n ts h :
  1 <= n -> ts <> [] ->
  foldl (push n) h ts = drop (length (h ++ ts) - Z.to_nat n) (h ++ ts).
Proof.
  intros Hn. induction ts as [|t ts IH] using rev_ind; [done|]. intros _.
  rewrite foldl_snoc. destruct (decide (ts = [])) as [->|Hne].
  - simpl. by apply push_window.
  - rewrite IH, push_window by done.
    rewrite (assoc_L (++) h ts [t]). apply drop_tail_snoc. lia.
Qed.

(** What [search] does to the cache. *)
Lemma search_cache query top_k r :
  query_cache (search query top_k true r).2 =
  match query_cache r !! query with
  | Some _ => query_cache r
  | None => <[query := embed query]> (query_cache r)
  end.
Proof.
  unfold search. destruct (query_cache r !! query); simpl;
    by destruct (nearest _ _ _).
Qed.

(** Searching again for the same query hits the cache, returns the same
    results and changes nothing. *)
Lemma search_again query top_k r :
  search query top_k true (search query top_k true r).2 =
  search query top_k true r.
Proof.
  unfold search. destruct (query_cache r !! query) as [v|] eqn:E; simpl.
  - destruct (nearest (collection r) v top_k) eqn:En; simpl;
      by rewrite E, En.
  - destruct (nearest (collection r) (embed query) top_k) eqn:En; simpl;
      rewrite lookup_insert_eq; simpl; by rewrite En.
Qed.

(** An answered [ask]: the history of the user becomes [push] of the new
    turn, and the histories of the other users are untouched. *)
Lemma ask_answered cfg user_id args st results r answer :
  args <> [] ->
  search (join (lit " ") args) (top_k_results cfg) true (retriever st)
    = (Ok results, r) ->
  results <> [] ->
  generate (join (lit " ") args)
    (context_text results ++ history_context cfg user_id (message_history st))
    = Ok answer ->
  let t := {| turn_query := join (lit " ") args;
              turn_answer := answer;
              turn_sources := res_source <$> results |} in
  (ask cfg user_id args st).1 = ReplyAnswer answer (res_source <$> results) /\
  history_of user_id (ask cfg user_id args st).2 =
    push (max_history_per_user cfg) (history_of user_id st) t /\
  (forall other, other <> user_id ->
     message_history (ask cfg user_id args st).2 !! other =
     message_history st !! other).
Proof.
  intros Ha Hs Hr Hg. unfold ask.
  apply truthy_true in Ha, Hr. rewrite Ha, Hs, Hr, Hg. simpl.
  split; [done|]. split.
  - unfold history_of. simpl. apply history_trim_append.
  - intros other Hne. by apply history_trim_append_other.
Qed.

(** X13: with a window of at least one entry, an answered [ask] leaves
    at most [N] entries, however long the history was before: the last
    [N] of the old history followed by the new turn. *)
Lemma ask_answered_window cfg user_id args st t :
  1 <= max_history_per_user cfg ->
  answered cfg user_id args st t ->
  let h := history_of user_id st ++ [t] in
  history_of user_id (ask cfg user_id args st).2 =
    drop (length h - Z.to_nat (max_history_per_user cfg)) h /\
  len (history_of user_id (ask cfg user_id args st).2)
    <= max_history_per_user cfg.
Proof.
  intros Hn (Ha & results & r & answer & Hs & Hr & Hg & ->).
  destruct (ask_answered cfg user_id args st results r answer Ha Hs Hr Hg)
    as (_ & Hh & _).
  cbv zeta. rewrite Hh. split; [by apply push_window|by apply push_length].
Qed.

Lemma answered_run_history cfg user_id st ts st' :
  answered_run cfg user_id st ts st' ->
  history_of user_id st' =
  foldl (push (max_history_per_user cfg)) (history_of user_id st) ts.
Proof.
  induction 1 as [st|st args t ts st' Hans _ IH]; [done|].
  destruct Hans as (Ha & results & r & answer & Hs & Hr & Hg & ->).
  destruct (ask_answered cfg user_id args st results r answer Ha Hs Hr Hg)
    as (_ & Hh & _).
  simpl. by rewrite IH, Hh.
Qed.

(** X14: after [N + 1] successive answered queries of a user without
    history ([N >= 1]), exactly the last [N] turns are stored, in order:
    the first one has been evicted. *)
Lemma answered_run_window cfg user_id st ts st' :
  1 <= max_history_per_user cfg ->
  history_of user_id st = [] ->
  len ts = max_history_per_user cfg + 1 ->
  answered_run cfg user_id st ts st' ->
  history_of user_id st' = drop 1 ts /\
  len (history_of user_id st') = max_history_per_user cfg.
Proof.
  intros Hn Hempty Hl Hrun. apply answered_run_history in Hrun.
  rewrite Hrun, Hempty, foldl_push_window; [|done|].
  - simpl. replace (length ts - Z.to_nat (max_history_per_user cfg))%nat
      with 1%nat by (unfold len in Hl; lia).
    split; [done|]. unfold len in *. rewrite length_drop. lia.
  - intros ->. unfold len in Hl. simpl in Hl. lia.
Qed.

(** A processed image: the turn is appended and nothing is dropped. *)
Lemma process_image_appends user_id args image_bytes st description :
  describe_image image_bytes (if truthy args then join (lit " ") args else [])
    = Ok description ->
  history_of user_id (process_image user_id args (Ok image_bytes) st).2 =
  history_of user_id st ++
  [ {| turn_query := lit "[Image uploaded]";
       turn_answer := description;
       turn_sources := [lit "image_description"] |} ].
Proof.
  intros Hd. unfold process_image. rewrite Hd. apply history_of_append.
Qed.

End facts.
End BotSpec.

Module BotClaims.
Import Embedder Retriever LLM Bot RetrieverSpec BotSpec LoadSpec.

(** C4 (amended): when the generation back end fails on a query that
    reached it, [ask] replies with the apology, leaves every user's
    history and the index as they were, and leaves the query-embedding
    cache as it was if the query was already cached; if it was not, the
    cache has gained exactly the embedding of this query.  Retrying the
    search for the same query then hits the cache, returns the same
    results and changes nothing more. *)
Theorem ask_generation_failure `{Engines} `{BaseLLM}
    cfg user_id args st results r e :
  args <> [] ->
  search (join (lit " ") args) (top_k_results cfg) true (retriever st)
    = (Ok results, r) ->
  results <> [] ->
  generate (join (lit " ") args)
    (context_text results ++ history_context cfg user_id (message_history st))
    = Raise e ->
  let query := join (lit " ") args in
  let st' := (ask cfg user_id args st).2 in
  (ask cfg user_id args st).1 = ReplyAskError /\
  message_history st' = message_history st /\
  collection (retriever st') = collection (retriever st) /\
  query_cache (retriever st') =
    match query_cache (retriever st) !! query with
    | Some _ => query_cache (retriever st)
    | None => <[query := embed query]> (query_cache (retriever st))
    end /\
  search query (top_k_results cfg) true (retriever st')
    = (Ok results, retriever st').
Proof.
  intros Ha Hs Hr Hg query st'. subst st'. unfold ask.
  apply truthy_true in Ha, Hr. rewrite Ha, Hs, Hr, Hg. simpl.
  assert (r = (search query (top_k_results cfg) true (retriever st)).2) as Er
    by (unfold query; by rewrite Hs).
  split; [done|]. split; [done|].
  split; [rewrite Er; apply search_collection|].
  split; [rewrite Er; apply search_cache|].
  rewrite Er at 1. rewrite search_again. unfold query. by rewrite Hs.
Qed.

Lemma ask_generation_failure_witness :
  let args := [lit "leave"; lit "days"] in
  let st := Scenario.fresh_state in
  (@ask Scenario.engines Scenario.llm_down Scenario.cfg 7 args st).1
    = ReplyAskError /\
  message_history
    (@ask Scenario.engines Scenario.llm_down Scenario.cfg 7 args st).2
    = message_history st.
Proof.
  cbv zeta.
  assert ([lit "leave"; lit "days"] <> []) as Ha by discriminate.
  assert (Scenario.leave_results <> []) as Hr by discriminate.
  pose proof (@ask_generation_failure Scenario.engines Scenario.llm_down
                Scenario.cfg 7 _ Scenario.fresh_state Scenario.leave_results _
                (BackendError (lit "unreachable")) Ha
                (pair_from_fst _ _ ltac:(vm_compute; reflexivity))
                Hr eq_refl) as Hw.
  cbv zeta in Hw. exact (conj (proj1 Hw) (proj1 (proj2 Hw))).
Defined.

(** C4 (as stated) fails: the back end is down, the query was not
    cached; [ask] apologises, yet the query-embedding cache has changed
    (it was empty, it now holds the embedding of the query). *)
Lemma ask_failure_changes_cache :
  let st := Scenario.fresh_state in
  let out := @ask Scenario.engines Scenario.llm_down Scenario.cfg 7
               [lit "leave"; lit "days"] st in
  out.1 = ReplyAskError /\
  query_cache (retriever st) !! lit "leave days" = None /\
  query_cache (retriever out.2) !! lit "leave days" = Some 10 /\
  query_cache (retriever out.2) <> query_cache (retriever st).
Proof.
  cbv zeta. split; [vm_compute; reflexivity|].
  split; [vm_compute; reflexivity|]. split; [vm_compute; reflexivity|].
  intros E. apply (f_equal (fun m => m !! lit "leave days")) in E.
  vm_compute in E. discriminate E.
Qed.

(** C1 (code defect): [process_image] appends to the history without
    trimming it.  With a window of 3 and a user whose history already
    holds 3 turns, a described image leaves 4 turns, the oldest still
    there; the sibling handler [ask] on the same state leaves 3, the
    oldest evicted and the order kept. *)
Theorem process_image_exceeds_history_window :
  let st := Scenario.full_state in
  let image := @process_image Scenario.engines Scenario.llm_up 7 [] (Ok []) st in
  let asked := @ask Scenario.engines Scenario.llm_up Scenario.cfg 7
                 [lit "leave"; lit "days"] st in
  max_history_per_user Scenario.cfg = 3 /\
  history_of 7 st = [Scenario.turn 1; Scenario.turn 2; Scenario.turn 3] /\
  image.1 = ReplyImage (lit "A cat.") /\
  history_of 7 image.2 =
    [ Scenario.turn 1; Scenario.turn 2; Scenario.turn 3;
      {| turn_query := lit "[Image uploaded]";
         turn_answer := lit "A cat.";
         turn_sources := [lit "image_description"] |} ] /\
  len (history_of 7 image.2) = 4 /\
  history_of 7 asked.2 =
    [ Scenario.turn 2; Scenario.turn 3;
      {| turn_query := lit "leave days";
         turn_answer := lit "Twenty days.";
         turn_sources := [lit "policy.md"] |} ].
Proof. cbv zeta. repeat split; by vm_compute. Qed.

End BotClaims.

(** ** The claims on the scenario of the specification *)

Module Witnesses.
Import Embedder Retriever LLM Bot Vocabulary RetrieverSpec LoadSpec.


Lemma index_documents_idempotent_witness :
  get_document_count Scenario.indexed_retriever = 1 /\
  @index_documents Scenario.engines Scenario.policy_fs (lit "data") false
    Scenario.indexed_retriever =
  (Ok (get_document_count Scenario.indexed_retriever),
   Scenario.indexed_retriever).
Proof.
  split; [vm_compute; reflexivity|].
  apply (@index_documents_idempotent Scenario.engines Scenario.policy_fs
           (lit "data") Scenario.indexed_retriever).
  vm_compute; reflexivity.
Defined.

(** Four answered queries of user 7 under a window of 3: the run exists,
    and its last three turns are what is stored. *)
Example four_answered_queries :
  exists ts st',
    @answered_run Scenario.engines Scenario.llm_up Scenario.cfg 7
      Scenario.fresh_state ts st' /\
    len ts = 4 /\
    history_of 7 st' = drop 1 ts /\
    len (history_of 7 st') = 3.
Proof.
  assert (exists ts st',
            @answered_run Scenario.engines Scenario.llm_up Scenario.cfg 7
              Scenario.fresh_state ts st' /\ len ts = 4)
    as (ts & st' & Hrun & Hl).
  { eexists _, _. split.
    - do 4 (eapply (run_ask _ _ _ [lit "leave"; lit "days"]);
            [ split; [discriminate|];
              exists Scenario.leave_results; eexists _, (lit "Twenty days.");
              split; [apply pair_from_fst; vm_compute; reflexivity|];
              split; [discriminate|]; split; reflexivity
            | ]).
      apply run_done.
    - reflexivity. }
  exists ts, st'. split; [done|]. split; [done|].
  by eapply (BotSpec.answered_run_window Scenario.cfg 7 Scenario.fresh_state).
Defined.

End Witnesses.

(* ===================================================================== *)
(** * Part III: further properties of the code                            *)
(* ===================================================================== *)

(** ** The chunker: termination, blank text, coverage *)

Module ChunkMore.
Import Embedder Vocabulary Coverage ChunkFacts.

Lemma chunk_loop_count fuel text cs ov st out :
  chunk_loop fuel text cs ov st = Some out ->
  (length out <= length st.2 + fuel)%nat.
Proof.
  revert st. induction fuel as [|fuel IH]; intros [s chunks];
    rewrite chunk_loop_unfold; simpl fst; simpl snd;
    destruct (s <? len text); try done; try (intros [= <-]; lia).
  intros Hr. apply IH in Hr. rewrite chunk_step_chunks in Hr. cbv zeta in Hr.
  destruct (truthy _); [rewrite length_app in Hr; simpl in Hr|]; lia.
Qed.

(** X1: with [chunk_size >= 1] and [overlap <= chunk_size // 2] every
    window starts after the previous one, so [chunk_text] returns after
    at most [len(text)] iterations, with at most [len(text)] chunks. *)
Theorem chunk_text_terminates text chunk_size overlap :
  1 <= chunk_size -> overlap <= chunk_size / 2 ->
  exists out,
    chunk_text (length text) text chunk_size overlap = Some out /\
    (length out <= length text)%nat.
Proof.
  intros Hcs Hov. unfold chunk_text.
  destruct (Z.leb_spec (len text) chunk_size).
  - eexists. split; [done|]. destruct text as [|c text]; [done|].
    destruct (truthy _); simpl; lia.
  - destruct (chunk_loop_returns (length text) text chunk_size overlap 0 [])
      as [out Hout]; [done|done|unfold len; lia|].
    exists out. split; [done|]. by apply chunk_loop_count in Hout.
Qed.

Lemma chunk_text_terminates_witness :
  exists out,
    chunk_text 15 Scenario.alphabet15 10 3 = Some out /\ (length out <= 15)%nat.
Proof.
  apply (chunk_text_terminates Scenario.alphabet15 10 3);
    vm_compute; congruence.
Defined.

(** X3: a text made of whitespace only yields no chunk, whatever the
    parameters, whenever [chunk_text] returns. *)
Theorem chunk_text_blank fuel text chunk_size overlap out :
  Forall (fun c => is_space c = true) text ->
  chunk_text fuel text chunk_size overlap = Some out ->
  out = [].
Proof.
  intros Hblank Hr. apply chunk_text_chunk_of in Hr.
  destruct out as [|c out]; [done|exfalso].
  apply Forall_cons in Hr as [(Hne & [Hhead _] & _ & (l & r & ->)) _].
  destruct c as [|x c]; [done|].
  specialize (Hhead x eq_refl).
  rewrite Forall_app in Hblank. destruct Hblank as [_ Hb].
  simpl in Hb. apply Forall_cons in Hb as [Hx _]. congruence.
Qed.

Lemma chunk_text_blank_witness :
  chunk_text 3 (lit "       ") 3 1 = Some [].
Proof.
  destruct (chunk_text 3 (lit "       ") 3 1) as [out|] eqn:E;
    [|by vm_compute in E].
  f_equal. apply (chunk_text_blank 3 (lit "       ") 3 1 out); [|done].
  repeat constructor.
Defined.

(** *** Coverage *)

Lemma lstrip_blank_prefix s :
  exists a, s = a ++ lstrip s /\ Forall (fun c => is_space c = true) a.
Proof.
  induction s as [|c s (a & IH & Ha)]; simpl.
  - by exists [].
  - destruct (is_space c) eqn:Hc.
    + exists (c :: a). split; [simpl; by rewrite <- IH|by constructor].
    + by exists [].
Qed.

Lemma rstrip_blank_suffix s :
  exists b, s = rstrip s ++ b /\ Forall (fun c => is_space c = true) b.
Proof.
  unfold rstrip. destruct (lstrip_blank_prefix (reverse s)) as (a & Ha & Hsp).
  exists (reverse a). split.
  - rewrite <- reverse_app, <- Ha. by rewrite reverse_involutive.
  - by apply Forall_reverse.
Qed.

Lemma strip_blank_margins s :
  exists a b, s = a ++ strip s ++ b /\
    Forall (fun c => is_space c = true) a /\
    Forall (fun c => is_space c = true) b.
Proof.
  destruct (lstrip_blank_prefix s) as (a & Ha & Hsa).
  destruct (rstrip_blank_suffix (lstrip s)) as (b & Hb & Hsb).
  exists a, b. unfold strip. by rewrite <- Hb.
Qed.

(** A character that is not whitespace survives the trimming of any
    window that contains its position. *)
Lemma window_covers text s e p x :
  0 <= s -> s <= Z.of_nat p -> Z.of_nat p < e ->
  text !! p = Some x -> is_space x = false ->
  exists l r,
    text = l ++ strip (slice text s e) ++ r /\
    (length l <= p < length l + length (strip (slice text s e)))%nat.
Proof.
  intros Hs Hsp Hpe Hx Hns.
  pose proof (lookup_lt_Some _ _ _ Hx) as Hpn.
  assert (slice text s e =
          take (Z.to_nat (Z.min e (len text)) - Z.to_nat s) (drop (Z.to_nat s) text))
    as Hw.
  { unfold slice. rewrite (adjust_index_id _ s) by (unfold len; lia).
    unfold adjust_index. destruct (Z.ltb_spec e 0); [lia|]. f_equal. lia. }
  set (k := (Z.to_nat (Z.min e (len text)) - Z.to_nat s)%nat) in Hw.
  set (w := slice text s e) in *.
  assert (w !! (p - Z.to_nat s)%nat = Some x) as Hwx.
  { rewrite Hw, lookup_take_lt by (unfold k, len; lia).
    rewrite lookup_drop. rewrite <- Hx. f_equal. lia. }
  destruct (strip_blank_margins w) as (a & b & Hab & Ha & Hb).
  assert (text = (take (Z.to_nat s) text ++ a) ++ strip w
                 ++ (b ++ drop k (drop (Z.to_nat s) text))) as Htext.
  { rewrite <- !(assoc_L (++)). rewrite (assoc_L (++) (strip w)).
    rewrite (assoc_L (++) a), <- Hab, Hw, take_drop. by rewrite take_drop. }
  eexists _, _. split; [exact Htext|].
  rewrite length_app, length_take.
  rewrite Hab in Hwx.
  destruct (decide (p - Z.to_nat s < length a)%nat) as [Hlt|Hge].
  { rewrite lookup_app_l in Hwx by done.
    rewrite Forall_lookup in Ha. specialize (Ha _ _ Hwx). congruence. }
  rewrite lookup_app_r in Hwx by lia.
  destruct (decide (p - Z.to_nat s - length a < length (strip w))%nat)
    as [Hin|Hout]; [lia|].
  rewrite lookup_app_r in Hwx by lia.
  rewrite Forall_lookup in Hb. specialize (Hb _ _ Hwx). congruence.
Qed.

Lemma covered_mono text chunks chunks' p :
  chunks ⊆ chunks' -> covered text chunks p -> covered text chunks' p.
Proof. intros Hsub (c & l & r & Hc & Ht & Hp). exists c, l, r. auto. Qed.

Lemma chunk_loop_covers fuel text cs ov s chunks out :
  1 <= cs -> 0 <= ov <= cs / 2 -> 0 <= s ->
  (forall p x, Z.of_nat p < s -> text !! p = Some x -> is_space x = false ->
               covered text chunks p) ->
  chunk_loop fuel text cs ov (s, chunks) = Some out ->
  forall p x, text !! p = Some x -> is_space x = false -> covered text out p.
Proof.
  intros Hcs Hov. revert s chunks.
  induction fuel as [|fuel IH]; intros s chunks Hs Hinv;
    rewrite chunk_loop_unfold; simpl fst; simpl snd;
    destruct (Z.ltb_spec s (len text)) as [Hlt|Hge]; try done;
    try (intros [= <-] p x Hx Hns; apply (Hinv p x); [|done|done];
         apply lookup_lt_Some in Hx; unfold len in Hge; lia).
  pose proof (chunk_end_progress text cs s Hcs) as He.
  pose proof (chunk_step_chunks text cs ov s chunks) as E2.
  pose proof (chunk_step_start text cs ov s chunks) as E1.
  destruct (chunk_step text cs ov (s, chunks)) as [s' chunks'].
  simpl in E1, E2. subst s' chunks'.
  set (e := chunk_end text cs s) in *.
  apply IH.
  { destruct (Z.ltb_spec e (len text)); lia. }
  intros p x Hp Hx Hns.
  destruct (decide (Z.of_nat p < s)) as [Hold|Hnew].
  - eapply covered_mono; [|by eapply Hinv].
    destruct (truthy _); [|done]. intros y Hy. apply elem_of_app. by left.
  - destruct (window_covers text s e p x) as (l & r & Ht & Hpos);
      try done; try lia.
    { destruct (Z.ltb_spec e (len text)); lia. }
    destruct (strip (slice text s e)) as [|c0 c] eqn:Ec; [simpl in Hpos; lia|].
    simpl truthy. cbv iota.
    exists (c0 :: c), l, r. split; [|done].
    apply elem_of_app. right. by apply list_elem_of_singleton.
Qed.

(** X4: with [chunk_size >= 1] and [0 <= overlap <= chunk_size // 2], no
    character other than whitespace is lost: every position of the text
    that holds one lies inside an occurrence of a returned chunk. *)
Theorem chunk_text_covers fuel text chunk_size overlap out p x :
  1 <= chunk_size -> 0 <= overlap <= chunk_size / 2 ->
  chunk_text fuel text chunk_size overlap = Some out ->
  text !! p = Some x -> is_space x = false ->
  covered text out p.
Proof.
  intros Hcs Hov. unfold chunk_text.
  destruct (Z.leb_spec (len text) chunk_size) as [Hle|Hgt].
  - intros [= <-] Hx Hns.
    destruct (window_covers text 0 (len text) p x) as (l & r & Ht & Hpos);
      try done; try lia.
    { apply lookup_lt_Some in Hx. unfold len. lia. }
    rewrite slice_all in Ht, Hpos.
    destruct (strip text) as [|c0 c] eqn:Ec; [simpl in Hpos; lia|].
    simpl truthy. cbv iota.
    exists (c0 :: c), l, r. split; [by apply list_elem_of_singleton|done].
  - intros Hr Hx Hns.
    eapply (chunk_loop_covers fuel text chunk_size overlap 0 []); try done.
    intros q y Hq. lia.
Qed.

Lemma chunk_text_covers_witness :
  covered Scenario.alphabet15 [lit "abcdefghij"; lit "hijklmno"] 12.
Proof.
  apply (chunk_text_covers 2 Scenario.alphabet15 10 3 _ 12 109%N);
    [lia|by vm_compute|by vm_compute|done|done].
Defined.

Lemma chunk_text_overlap_ge_size_never_returns_witness :
  chunk_text 1000 (lit "abcdefgh") 4 6 = None.
Proof.
  apply ChunkSpec.chunk_text_overlap_ge_size_never_returns;
    [lia|by vm_compute|lia].
Defined.

End ChunkMore.

(** ** Loading: what every loaded document is, and when ids are unique *)

Module LoadMore.
Import Embedder Vocabulary Coverage ChunkFacts LoadSpec.

Lemma load_documents_loaded fs data_dir files :
  fs data_dir = Some files -> load_documents fs data_dir = Ok (loaded files).
Proof.
  intros Hfs. unfold load_documents, loaded. rewrite Hfs. f_equal.
  by rewrite load_fold.
Qed.

Lemma loaded_cons f files :
  loaded (f :: files) =
  (if glob_md (file_name f) then file_documents f else []) ++ loaded files.
Proof. done. Qed.

Lemma elem_of_loaded files doc :
  doc ∈ loaded files <->
  exists f, f ∈ files /\ glob_md (file_name f) = true /\ doc ∈ file_documents f.
Proof.
  induction files as [|f files IH].
  - split; [by intros ?%elem_of_nil|by intros (f & ?%elem_of_nil & _)].
  - rewrite loaded_cons, elem_of_app, IH. split.
    + intros [Hd|(g & Hg & Hmd & Hd)].
      * destruct (glob_md (file_name f)) eqn:Hmd; [|by apply elem_of_nil in Hd].
        exists f. split; [apply list_elem_of_here|done].
      * exists g. split; [by apply list_elem_of_further|done].
    + intros (g & Hg & Hmd & Hd). apply elem_of_cons in Hg as [->|Hg].
      * left. by rewrite Hmd.
      * right. by exists g.
Qed.

Lemma elem_of_file_documents f doc :
  doc ∈ file_documents f ->
  exists i c, chunk_text_default (file_content f) !! i = Some c /\
              doc = document_of f i c.
Proof.
  intros [i Hi]%list_elem_of_lookup. unfold file_documents in Hi.
  rewrite list_lookup_imap in Hi.
  destruct (_ !! i) as [c|] eqn:Hc; [|done]. injection Hi as <-.
  by exists i, c.
Qed.

(** X5: every document that [load_documents] returns comes from an entry
    of the directory that matches [*.md]: its source is that file name,
    its content is a non-empty, trimmed piece of the file of at most 500
    characters, and its id is the stem followed by ["_"] and a chunk
    number. *)
Theorem load_documents_each fs data_dir files :
  fs data_dir = Some files ->
  exists docs,
    load_documents fs data_dir = Ok docs /\
    forall doc, doc ∈ docs ->
      exists f i,
        f ∈ files /\ glob_md (file_name f) = true /\
        source doc = file_name f /\
        chunk_id doc = stem (file_name f) ++ lit "_" ++ str_of_nat i /\
        content doc <> [] /\ trimmed (content doc) /\
        len (content doc) <= 500 /\
        substring (content doc) (file_content f).
Proof.
  intros Hfs. exists (loaded files).
  split; [by apply load_documents_loaded|].
  intros doc (f & Hf & Hmd & Hd)%elem_of_loaded.
  apply elem_of_file_documents in Hd as (i & c & Hc & ->).
  exists f, i. do 4 (split; [done|]). simpl.
  pose proof (chunk_text_default_returns (file_content f)) as Hr.
  pose proof (chunk_text_chunk_of _ _ _ _ _ Hr) as H1.
  pose proof (chunk_text_chunk_len _ _ 500 _ _ ltac:(lia) Hr) as H2.
  rewrite Forall_lookup in H1, H2.
  destruct (H1 i c Hc) as (Hne & Ht & _ & Hsub).
  specialize (H2 i c Hc). done.
Qed.

Lemma load_documents_each_witness :
  exists docs,
    load_documents Scenario.policy_fs (lit "data") = Ok docs /\
    forall doc, doc ∈ docs ->
      exists f i,
        f ∈ [ {| file_name := lit "policy.md";
                 file_content :=
                   lit "Employees get 20 days of annual leave." |} ] /\
        glob_md (file_name f) = true /\
        source doc = file_name f /\
        chunk_id doc = stem (file_name f) ++ lit "_" ++ str_of_nat i /\
        content doc <> [] /\ trimmed (content doc) /\
        len (content doc) <= 500 /\
        substring (content doc) (file_content f).
Proof.
  apply (load_documents_each Scenario.policy_fs (lit "data")).
  by vm_compute.
Defined.

(** *** Identifiers *)

Lemma pretty_N_go_no_underscore x s :
  "_"%char ∉ list_ascii_of_string s ->
  "_"%char ∉ list_ascii_of_string (pretty_N_go x s).
Proof.
  revert s. induction (N.lt_wf_0 x) as [x _ IH]; intros s Hs.
  assert (x = 0 \/ 0 < x)%N as [->|Hpos] by lia.
  - by rewrite pretty_N_go_0.
  - rewrite pretty_N_go_step by done. apply IH.
    { by apply N.div_lt. }
    simpl. rewrite not_elem_of_cons. split; [|done].
    unfold pretty_N_char. by repeat case_match.
Qed.

Lemma str_of_nat_no_underscore i : 95%N ∉ str_of_nat i.
Proof.
  unfold str_of_nat, lit. intros (a & Ha & Hin)%list_elem_of_fmap.
  assert (a = "_"%char) as ->.
  { rewrite <- (ascii_N_embedding a), <- Ha. done. }
  assert ("_"%char ∉ list_ascii_of_string (pretty i)) as Hno; [|done].
  unfold pretty, pretty_nat, pretty, pretty_N. destruct (decide _).
  - simpl. by intros [?|?%elem_of_nil]%elem_of_cons.
  - apply pretty_N_go_no_underscore. simpl. apply not_elem_of_nil.
Qed.

Lemma split_at_first (k : N) (u v x y : str) :
  k ∉ u -> k ∉ v -> u ++ k :: x = v ++ k :: y -> u = v /\ x = y.
Proof.
  revert v. induction u as [|a u IH]; intros [|b v] Hu Hv E; simpl in E.
  - by injection E as ->.
  - injection E as -> _. exfalso. apply Hv, list_elem_of_here.
  - injection E as -> _. exfalso. apply Hu, list_elem_of_here.
  - injection E as -> E. apply not_elem_of_cons in Hu as [_ Hu].
    apply not_elem_of_cons in Hv as [_ Hv].
    destruct (IH v Hu Hv E) as [-> ->]. done.
Qed.

Lemma split_at_last (k : N) (a b d1 d2 : str) :
  k ∉ d1 -> k ∉ d2 -> a ++ k :: d1 = b ++ k :: d2 -> a = b /\ d1 = d2.
Proof.
  intros H1 H2 E. apply (f_equal reverse) in E.
  rewrite !reverse_app, !reverse_cons, <- !(assoc_L (++)) in E. simpl in E.
  apply split_at_first in E as [E1 E2]; [|by rewrite elem_of_reverse..].
  by apply (inj reverse) in E1, E2.
Qed.

(** An identifier determines its stem and its chunk number. *)
Lemma chunk_id_inj (s1 s2 : str) i j :
  s1 ++ lit "_" ++ str_of_nat i = s2 ++ lit "_" ++ str_of_nat j ->
  s1 = s2 /\ i = j.
Proof.
  change (lit "_") with [95%N]. simpl. intros E.
  apply split_at_last in E as [-> E]; try apply str_of_nat_no_underscore.
  split; [done|]. by apply (inj str_of_nat).
Qed.

Lemma md_stems_cons f files :
  md_stems (f :: files) =
  if glob_md (file_name f) then stem (file_name f) :: md_stems files
  else md_stems files.
Proof.
  unfold md_stems. rewrite filter_cons.
  destruct (glob_md (file_name f)); by destruct (decide _).
Qed.

Lemma elem_of_md_stems f files :
  f ∈ files -> glob_md (file_name f) = true ->
  stem (file_name f) ∈ md_stems files.
Proof.
  intros Hf Hmd. unfold md_stems. apply list_elem_of_fmap.
  exists f. split; [done|]. apply list_elem_of_filter. by rewrite Hmd.
Qed.

Lemma loaded_ids_NoDup files :
  NoDup (md_stems files) -> NoDup (chunk_id <$> loaded files).
Proof.
  induction files as [|f files IH]; [constructor|].
  rewrite md_stems_cons, loaded_cons, fmap_app.
  destruct (glob_md (file_name f)) eqn:Hmd; [|by simpl].
  intros [Hnew Hrest]%NoDup_cons. apply NoDup_app.
  split; [apply file_documents_ids_NoDup|]. split; [|by apply IH].
  intros id (d1 & -> & Hd1)%list_elem_of_fmap (d2 & E & Hd2)%list_elem_of_fmap.
  apply elem_of_file_documents in Hd1 as (i & c1 & _ & ->).
  apply elem_of_loaded in Hd2 as (g & Hg & Hgmd & Hd2).
  apply elem_of_file_documents in Hd2 as (j & c2 & _ & ->).
  simpl in E. apply chunk_id_inj in E as [E _].
  apply Hnew. rewrite E. by apply elem_of_md_stems.
Qed.

(** A name that matches [*.md] is a base followed by [".md"]. *)
Lemma glob_md_base name :
  glob_md name = true ->
  name = take (length name - 3) name ++ lit ".md".
Proof.
  unfold glob_md, ends_with. intros Hm%bool_decide_eq_true.
  change (length (lit ".md")) with 3%nat in Hm.
  rewrite <- Hm. by rewrite take_drop.
Qed.

Lemma stem_of_md name :
  glob_md name = true -> name <> lit ".md" ->
  name = stem name ++ lit ".md".
Proof.
  intros Hmd Hne. pose proof (glob_md_base name Hmd) as Hb.
  set (base := take (length name - 3) name) in *.
  assert (base <> []) as Hbase by (intros E; rewrite E in Hb; done).
  rewrite Hb at 2. by rewrite stem_md.
Qed.

(** In a directory (distinct entry names) without an entry named exactly
    [".md"], the entries that are read have distinct stems. *)
Lemma md_stems_NoDup files :
  NoDup (file_name <$> files) ->
  Forall (fun f => file_name f <> lit ".md") files ->
  NoDup (md_stems files).
Proof.
  induction files as [|f files IH]; [constructor|].
  rewrite fmap_cons, md_stems_cons.
  intros [Hnew Hrest]%NoDup_cons [Hf Hall]%Forall_cons.
  destruct (glob_md (file_name f)) eqn:Hmd; [|by apply IH].
  apply NoDup_cons. split; [|by apply IH].
  unfold md_stems.
  intros (g & E & [Hgmd Hg]%list_elem_of_filter)%list_elem_of_fmap.
  apply Is_true_true in Hgmd. rewrite Forall_forall in Hall.
  apply Hnew. apply list_elem_of_fmap. exists g. split; [|done].
  rewrite (stem_of_md (file_name f)) by done.
  rewrite (stem_of_md (file_name g)) by auto.
  by rewrite E.
Qed.

(** X6: in a directory, where entry names are distinct, without an entry
    named exactly [".md"], the ids of all loaded documents are pairwise
    distinct, across files as well as within one. *)
Theorem load_documents_ids_unique fs data_dir files :
  fs data_dir = Some files ->
  NoDup (file_name <$> files) ->
  Forall (fun f => file_name f <> lit ".md") files ->
  exists docs,
    load_documents fs data_dir = Ok docs /\ NoDup (chunk_id <$> docs).
Proof.
  intros Hfs Hnames Hdot. exists (loaded files).
  split; [by apply load_documents_loaded|].
  by apply loaded_ids_NoDup, md_stems_NoDup.
Qed.

Lemma load_documents_ids_unique_witness :
  exists docs,
    load_documents Scenario.policy_fs (lit "data") = Ok docs /\
    NoDup (chunk_id <$> docs).
Proof.
  apply (load_documents_ids_unique Scenario.policy_fs (lit "data")
           [ {| file_name := lit "policy.md";
                file_content :=
                  lit "Employees get 20 days of annual leave." |} ]).
  - by vm_compute.
  - apply NoDup_singleton.
  - apply Forall_singleton. by vm_compute.
Defined.

(** The id rule does clash for the two names [".md"] and [".md.md"],
    whose stems are both [".md"]. *)
Example dot_md_stems_clash :
  stem (lit ".md") = lit ".md" /\ stem (lit ".md.md") = lit ".md".
Proof. split; by vm_compute. Qed.

End LoadMore.

(** ** The retriever: what indexing stores, what searching caches *)

Module RetrieverMore.
Import Embedder Retriever Vocabulary Coverage LoadSpec LoadMore RetrieverSpec.

Section facts.
Context `{Engines}.

Lemma batch_zip (docs : list Document) :
  zip (chunk_id <$> docs)
    (zip (embed_batch (content <$> docs))
       (zip (content <$> docs)
          ((fun doc => {| meta_source := source doc;
                          meta_chunk_id := chunk_id doc |}) <$> docs))) =
  (fun doc =>
     (chunk_id doc,
      (embed (content doc),
       (content doc,
        {| meta_source := source doc; meta_chunk_id := chunk_id doc |}))))
    <$> docs.
Proof.
  unfold embed_batch, embed.
  induction docs as [|doc docs IH]; [done|].
  rewrite !fmap_cons. cbn [zip_with]. by rewrite IH.
Qed.

Lemma add_one_fresh (doc : Document) c :
  c !! chunk_id doc = None ->
  add_one c
    (chunk_id doc,
     (embed (content doc),
      (content doc,
       {| meta_source := source doc; meta_chunk_id := chunk_id doc |}))) =
  <[chunk_id doc := entry_of doc]> c.
Proof. intros Hc. unfold add_one. by rewrite Hc. Qed.

(** Storing a batch of fresh, distinct ids: every record is found under
    its id, nothing else changes, and the size grows by the batch. *)
Lemma add_all_fresh (docs : list Document) c :
  NoDup (chunk_id <$> docs) ->
  (forall doc, doc ∈ docs -> c !! chunk_id doc = None) ->
  let c' :=
    fold_left add_one
      ((fun doc =>
          (chunk_id doc,
           (embed (content doc),
            (content doc,
             {| meta_source := source doc; meta_chunk_id := chunk_id doc |}))))
         <$> docs) c in
  (forall doc, doc ∈ docs -> c' !! chunk_id doc = Some (entry_of doc)) /\
  (forall id, id ∉ chunk_id <$> docs -> c' !! id = c !! id) /\
  size c' = (size c + length docs)%nat.
Proof.
  revert c. induction docs as [|doc docs IH]; intros c Hnd Hfresh; cbv zeta.
  { simpl. split; [by intros doc ?%elem_of_nil|]. split; [done|lia]. }
  rewrite fmap_cons in Hnd. apply NoDup_cons in Hnd as [Hnew Hnd].
  rewrite fmap_cons. cbn [fold_left].
  rewrite add_one_fresh by apply Hfresh, list_elem_of_here.
  destruct (IH (<[chunk_id doc := entry_of doc]> c) Hnd) as (Ha & Hb & Hc).
  { intros d Hd. rewrite lookup_insert_ne.
    - apply Hfresh. by apply list_elem_of_further.
    - intros E. apply Hnew. rewrite E. by apply list_elem_of_fmap_2. }
  split; [|split].
  - intros d [->|Hd]%elem_of_cons; [|by apply Ha].
    rewrite Hb by done. by rewrite lookup_insert_eq.
  - intros id Hid. rewrite fmap_cons in Hid.
    apply not_elem_of_cons in Hid as [Hne Hid].
    rewrite Hb by done. by rewrite lookup_insert_ne.
  - rewrite Hc, map_size_insert_None by (apply Hfresh, list_elem_of_here).
    simpl. lia.
Qed.

Lemma lookup_delete_ids (ids : list str) (c : gmap str (Entry vector))
    (k : str) :
  k ∈ ids -> delete_ids ids c !! k = None.
Proof.
  unfold delete_ids. induction ids as [|id ids IH]; simpl.
  - by intros ?%elem_of_nil.
  - intros Hin. destruct (decide (id = k)) as [->|Hne].
    + by rewrite lookup_delete_eq.
    + rewrite lookup_delete_ne by done. apply IH.
      by apply elem_of_cons in Hin as [->|].
Qed.

(** Deleting all stored ids leaves the empty collection. *)
Lemma delete_all_ids (c : gmap str (Entry vector)) :
  delete_ids (get_ids c) c = ∅.
Proof.
  apply map_eq. intros k. rewrite lookup_empty.
  destruct (c !! k) as [e|] eqn:Hk.
  - apply lookup_delete_ids. unfold get_ids. apply list_elem_of_fmap.
    exists (k, e). split; [done|]. by apply elem_of_map_to_list.
  - unfold delete_ids. induction (get_ids c) as [|id ids IH]; [done|].
    simpl. destruct (decide (id = k)) as [->|Hne].
    + by rewrite lookup_delete_eq.
    + by rewrite lookup_delete_ne.
Qed.

(** When [index_documents] goes on to load (empty index, or
    [force_reindex]), the collection it loads into is empty. *)
Lemma index_documents_start force_reindex r :
  get_document_count r = 0 \/ force_reindex = true ->
  (count (collection r) >? 0) && negb force_reindex = false /\
  collection
    (if force_reindex && (count (collection r) >? 0) then
       if truthy (get_ids (collection r))
       then set_collection (delete_ids (get_ids (collection r)) (collection r)) r
       else r
     else r) = ∅ /\
  query_cache
    (if force_reindex && (count (collection r) >? 0) then
       if truthy (get_ids (collection r))
       then set_collection (delete_ids (get_ids (collection r)) (collection r)) r
       else r
     else r) = query_cache r.
Proof.
  intros Hpre. unfold get_document_count, count in *.
  split; [|split].
  - destruct Hpre as [H0| ->]; [by rewrite H0|by rewrite andb_false_r].
  - destruct (Z.gtb_spec (Z.of_nat (size (collection r))) 0) as [Hpos|H0].
    + destruct Hpre as [?| ->]; [lia|]. simpl.
      destruct (truthy _) eqn:Ht; simpl; [apply delete_all_ids|].
      apply truthy_false in Ht. rewrite <- (delete_all_ids (collection r)).
      by rewrite Ht.
    + rewrite andb_false_r. apply map_size_empty_iff. lia.
  - destruct (_ && _); [|done]. by destruct (truthy _).
Qed.

(** On a batch that the store accepts: on an empty index, or with
    [force_reindex], and a readable directory (distinct entry names,
    none exactly [".md"]), [index_documents] returns the number of
    loaded documents, which is then the entry count; every loaded
    document is stored under its id; nothing else is stored; and the
    query cache is untouched. *)
Lemma index_documents_stores fs data_dir force_reindex r files :
  get_document_count r = 0 \/ force_reindex = true ->
  fs data_dir = Some files ->
  NoDup (file_name <$> files) ->
  Forall (fun f => file_name f <> lit ".md") files ->
  let out := index_documents fs data_dir force_reindex r in
  load_documents fs data_dir = Ok (loaded files) /\
  out.1 = Ok (len (loaded files)) /\
  get_document_count out.2 = len (loaded files) /\
  (forall doc, doc ∈ loaded files ->
     collection out.2 !! chunk_id doc = Some (entry_of doc)) /\
  (forall id, is_Some (collection out.2 !! id) ->
     id ∈ chunk_id <$> loaded files) /\
  query_cache out.2 = query_cache r.
Proof.
  intros Hpre Hfs Hnames Hdot. cbv zeta.
  split; [by apply load_documents_loaded|].
  destruct (index_documents_start force_reindex r Hpre) as (Hgo & Hc & Hq).
  unfold index_documents. rewrite Hgo, (load_documents_loaded _ _ _ Hfs).
  set (r1 := if force_reindex && _ then _ else r) in *.
  pose proof (loaded_ids_NoDup files (md_stems_NoDup files Hnames Hdot)) as Hnd.
  destruct (truthy (loaded files)) eqn:Ht; simpl.
  - unfold collection_add. rewrite bool_decide_eq_true_2 by done.
    rewrite batch_zip, Hc. simpl.
    destruct (add_all_fresh (loaded files) ∅ Hnd) as (Ha & Hb & Hs).
    { intros doc _. apply lookup_empty. }
    split; [done|]. split; [|split; [done|split; [|done]]].
    + unfold get_document_count, count. simpl. rewrite Hs, map_size_empty.
      unfold len. lia.
    + intros id Hid. destruct (decide (id ∈ chunk_id <$> loaded files));
        [done|]. rewrite Hb, lookup_empty in Hid by done.
      by destruct Hid.
  - apply truthy_false in Ht. rewrite Ht. simpl.
    split; [done|]. unfold get_document_count. rewrite Hc.
    split; [done|]. split; [by intros doc ?%elem_of_nil|].
    split; [|done]. intros id Hid. rewrite lookup_empty in Hid.
    by destruct Hid.
Qed.


Lemma search_keeps_cached query top_k use_cache r q v :
  query_cache r !! q = Some v ->
  query_cache (search query top_k use_cache r).2 !! q = Some v.
Proof.
  intros Hq. unfold search. destruct use_cache; simpl.
  - destruct (query_cache r !! query) as [cached|] eqn:E; simpl;
      destruct (nearest _ _ _); simpl; try done;
      (destruct (decide (query = q)) as [<-|];
       [congruence|by rewrite lookup_insert_ne]).
  - by destruct (nearest _ _ _).
Qed.

Lemma search_other_key query top_k use_cache r q :
  q <> query ->
  query_cache (search query top_k use_cache r).2 !! q = query_cache r !! q.
Proof.
  intros Hq. unfold search. destruct use_cache; simpl.
  - destruct (query_cache r !! query) as [cached|] eqn:E; simpl;
      destruct (nearest _ _ _); simpl; try done;
      by rewrite lookup_insert_ne.
  - by destruct (nearest _ _ _).
Qed.

(** X9: [search] never removes or overwrites a cached embedding, touches
    no entry but the one of its query, leaves the retriever exactly as
    it was when called with [use_cache=False], and with [use_cache=True]
    leaves the query cached even when the store query fails. *)
Theorem search_cache_frame query top_k use_cache r :
  (forall q v, query_cache r !! q = Some v ->
     query_cache (search query top_k use_cache r).2 !! q = Some v) /\
  (forall q, q <> query ->
     query_cache (search query top_k use_cache r).2 !! q = query_cache r !! q) /\
  (use_cache = false -> (search query top_k use_cache r).2 = r) /\
  (use_cache = true ->
     is_Some (query_cache (search query top_k use_cache r).2 !! query)).
Proof.
  split; [intros q v; apply search_keeps_cached|].
  split; [intros q; apply search_other_key|].
  unfold search. split; intros ->; simpl.
  - by destruct (nearest _ _ _).
  - destruct (query_cache r !! query) as [cached|] eqn:E; simpl;
      destruct (nearest _ _ _); simpl; by rewrite ?E, ?lookup_insert_eq.
Qed.

(** X10: searching twice for the same query with the cache on returns
    the same outcome the second time and changes nothing more. *)
Theorem search_repeat query top_k r :
  let first := search query top_k true r in
  let second := search query top_k true first.2 in
  second.1 = first.1 /\ second.2 = first.2.
Proof. cbv zeta. by rewrite BotSpec.search_again. Qed.

(** X11: after [clear_cache], a cached search returns what an uncached
    search returns on the retriever as it was, and the cache then holds
    the fresh embedding of this query and nothing else. *)
Theorem clear_cache_then_search query top_k r :
  let out := search query top_k true (clear_cache r) in
  out.1 = (search query top_k false r).1 /\
  query_cache out.2 = {[ query := embed query ]} /\
  collection out.2 = collection r.
Proof.
  cbv zeta. unfold search, clear_cache. simpl. rewrite lookup_empty. simpl.
  destruct (nearest _ _ _); simpl; by rewrite insert_empty.
Qed.

End facts.
End RetrieverMore.

(** ** The handlers: frames, photos, sources *)

Module BotMore.
Import Embedder Retriever LLM Bot Handlers Vocabulary RetrieverSpec BotSpec
  RetrieverMore.

Section facts.
Context `{Engines} `{BaseLLM}.

(** X12: whatever its outcome, [ask] leaves the index as it is, never
    removes or overwrites a cached embedding and touches no cache entry
    but the one of its query, and leaves the history and the stored
    sources of every other user as they are; when it replies with the
    usage hint or with "nothing found", the history and the sources of
    the asking user are unchanged too. *)
Theorem ask_frame cfg user_id args st :
  let out := ask cfg user_id args st in
  collection (retriever out.2) = collection (retriever st) /\
  (forall q v, query_cache (retriever st) !! q = Some v ->
     query_cache (retriever out.2) !! q = Some v) /\
  (forall q, q <> join (lit " ") args ->
     query_cache (retriever out.2) !! q = query_cache (retriever st) !! q) /\
  (forall other, other <> user_id ->
     message_history out.2 !! other = message_history st !! other /\
     last_sources out.2 !! other = last_sources st !! other) /\
  (out.1 = ReplyUsage \/ out.1 = ReplyNoResults ->
     message_history out.2 = message_history st /\
     last_sources out.2 = last_sources st).
Proof.
  cbv zeta. unfold ask. destruct (truthy args); simpl; [|done].
  pose proof (search_collection (join (lit " ") args) (top_k_results cfg)
                true (retriever st)) as Hc.
  pose proof (fun q v => search_keeps_cached (join (lit " ") args)
                (top_k_results cfg) true (retriever st) q v) as Hk.
  pose proof (fun q => search_other_key (join (lit " ") args)
                (top_k_results cfg) true (retriever st) q) as Ho.
  destruct (search _ _ _ _) as [[results|e] r]; simpl in *.
  - destruct (truthy results); simpl; [|done].
    destruct (generate _ _) as [answer|e]; simpl.
    + do 3 (split; [done|]). split; [|by intros [?|?]].
      intros other Hne. split; [by apply history_trim_append_other|].
      by rewrite lookup_insert_ne.
    + do 3 (split; [done|]). split; [|by intros [?|?]].
      intros other Hne. split; [done|]. by rewrite lookup_insert_ne.
  - do 4 (split; [done|]). by intros [?|?].
Qed.

(** X16: after [/image] without a replied photo (the words after the
    command are dropped), the next photo of that user is processed as
    [process_image] without a prompt does, whatever its outcome, and
    the request is used up: one more photo only gets the hint and
    changes nothing.  A user who never asked gets the hint. *)
Theorem image_flow user_id args download download' s :
  let asked := image_command user_id args None s in
  let first := handle_photo user_id download asked.2 in
  asked.1 = PhotoSendImage /\ bot asked.2 = bot s /\
  first.1 = PhotoProcessed (process_image user_id [] download (bot s)).1 /\
  bot first.2 = (process_image user_id [] download (bot s)).2 /\
  handle_photo user_id download' first.2 = (PhotoUseCommand, first.2) /\
  (forall other, other <> user_id ->
     waiting_for_image s !! other = None ->
     handle_photo other download' asked.2 = (PhotoUseCommand, asked.2)).
Proof.
  cbv zeta. unfold image_command, handle_photo. simpl.
  rewrite lookup_insert_eq. simpl. rewrite lookup_insert_eq. simpl.
  do 5 (split; [done|]). intros other Hne Hnone.
  by rewrite lookup_insert_ne, Hnone.
Qed.

(** [/image] in reply to a photo processes that photo at once, with the
    words after the command as the prompt, and neither sets nor clears
    the request of any user. *)
Lemma image_command_reply user_id args download s :
  let out := image_command user_id args (Some download) s in
  out.1 = PhotoProcessed (process_image user_id args download (bot s)).1 /\
  bot out.2 = (process_image user_id args download (bot s)).2 /\
  waiting_for_image out.2 = waiting_for_image s.
Proof. done. Qed.

Variable percent : float -> Z.

Lemma sources_fold (results : list SearchResult) k response :
  fold_left
    (fun response '(i, source) =>
       response ++ source_lines percent (S i) source)
    (zip (seq k (length results)) results) response =
  response ++
  concat (imap (fun i => source_lines percent (S (k + i))) results).
Proof.
  revert k response.
  induction results as [|x results IH]; intros k response; simpl.
  - by rewrite app_nil_r.
  - rewrite IH, <- (assoc_L (++)), Nat.add_0_r. do 2 f_equal.
    f_equal. apply imap_ext. intros i y _. simpl. by rewrite Nat.add_succ_r.
Qed.

(** X17: once [ask] has retrieved results for a question (whether the
    back end then answers or fails), [sources] lists exactly these
    results, in rank order, numbered from 1, after the header. *)
Theorem sources_after_ask cfg user_id args st results r :
  args <> [] ->
  search (join (lit " ") args) (top_k_results cfg) true (retriever st)
    = (Ok results, r) ->
  results <> [] ->
  sources percent user_id (ask cfg user_id args st).2 =
  SourcesListing
    (sources_header ++
     concat (imap (fun i => source_lines percent (S i)) results)).
Proof.
  intros Ha Hs Hr. unfold ask.
  apply truthy_true in Ha. rewrite Ha, Hs.
  pose proof Hr as Ht. apply truthy_true in Ht. rewrite Ht. simpl.
  assert (forall st', last_sources st' !! user_id = Some results ->
            sources percent user_id st' =
            SourcesListing
              (sources_header ++
               concat (imap (fun i => source_lines percent (S i)) results)))
    as Hshow.
  { intros st' Hl. unfold sources. rewrite Hl. simpl. rewrite Ht. simpl.
    f_equal. apply (sources_fold results 0). }
  destruct (generate _ _); apply Hshow; simpl; by rewrite lookup_insert_eq.
Qed.

(** A user for whom no results are stored (none ever, or an empty list)
    gets the "no sources" reply. *)
Lemma sources_none_iff user_id st :
  sources percent user_id st = SourcesNone <->
  default [] (last_sources st !! user_id) = [].
Proof.
  unfold sources. destruct (default [] _) as [|x l]; simpl; by split.
Qed.

End facts.

(** X18: a snippet never holds a line break, has at most 153
    characters, and is the content plus ["..."] when the content has no
    line break and at most 150 characters. *)
Theorem snippet_bounds content :
  (10%N ∉ snippet content) /\
  len (snippet content) <= 153 /\
  ((10%N ∉ content) -> len content <= 150 ->
   snippet content = content ++ lit "...").
Proof.
  unfold snippet, slice_to.
  pose proof (len_nonneg content) as Hl.
  assert (forall s, 10%N ∉ replace_newlines s) as Hno.
  { intros s (c & Hc & _)%list_elem_of_fmap.
    destruct (N.eqb_spec c 10); [done|congruence]. }
  split; [|split].
  - rewrite elem_of_app. intros [Hin|Hin]; [by apply Hno in Hin|].
    change (lit "...") with [46%N; 46%N; 46%N] in Hin.
    rewrite !elem_of_cons, elem_of_nil in Hin.
    by destruct Hin as [?|[?|[?|?]]].
  - rewrite len_app. unfold len, replace_newlines.
    rewrite length_fmap, length_take. change (length (lit "...")) with 3%nat.
    unfold adjust_index. simpl. lia.
  - intros Hnl H150. f_equal.
    rewrite take_ge by (unfold adjust_index, len in *; simpl; lia).
    unfold replace_newlines. rewrite <- (list_fmap_id content) at 2.
    apply list_fmap_ext. intros i c Hc. simpl.
    destruct (N.eqb_spec c 10) as [->|]; [|done].
    exfalso. apply Hnl. by eapply list_elem_of_lookup_2.
Qed.

End BotMore.

(** ** The further properties on the scenario *)

Module MoreWitnesses.
Import Embedder Retriever LLM Bot Handlers Vocabulary Coverage RetrieverSpec
  BotSpec RetrieverMore BotMore.


Lemma search_cache_frame_witness :
  (@search Scenario.engines (lit "leave days") 3 false
     Scenario.indexed_retriever).2 = Scenario.indexed_retriever.
Proof.
  by apply (@search_cache_frame Scenario.engines (lit "leave days") 3 false
              Scenario.indexed_retriever).
Defined.

Lemma ask_frame_witness :
  message_history
    (@ask Scenario.engines Scenario.llm_up Scenario.cfg 7 []
       Scenario.full_state).2 = message_history Scenario.full_state.
Proof.
  apply (@ask_frame Scenario.engines Scenario.llm_up Scenario.cfg 7 []
           Scenario.full_state).
  left. reflexivity.
Defined.

Lemma ask_answered_window_witness :
  len (history_of 7
         (@ask Scenario.engines Scenario.llm_up Scenario.cfg 7
            [lit "leave"; lit "days"] Scenario.full_state).2) <= 3.
Proof.
  apply (@ask_answered_window Scenario.engines Scenario.llm_up Scenario.cfg 7
           [lit "leave"; lit "days"] Scenario.full_state
           {| turn_query := lit "leave days";
              turn_answer := lit "Twenty days.";
              turn_sources := [lit "policy.md"] |}).
  - vm_compute; congruence.
  - split; [discriminate|].
    exists Scenario.leave_results; eexists _, (lit "Twenty days.").
    split; [apply pair_from_fst; vm_compute; reflexivity|].
    split; [discriminate|]. split; reflexivity.
Defined.

Lemma image_flow_witness :
  let s := @Build_Session Scenario.engines Scenario.fresh_state ∅ in
  let asked := @image_command Scenario.engines Scenario.llm_up 7 [] None s in
  @handle_photo Scenario.engines Scenario.llm_up 8 (Ok []) asked.2
  = (PhotoUseCommand, asked.2).
Proof.
  cbv zeta.
  by apply (@image_flow Scenario.engines Scenario.llm_up 7 [] (Ok []) (Ok [])
              (@Build_Session Scenario.engines Scenario.fresh_state ∅)).
Defined.

Lemma sources_after_ask_witness :
  @sources Scenario.engines (fun d => 100 * d) 7
    (@ask Scenario.engines Scenario.llm_down Scenario.cfg 7
       [lit "leave"; lit "days"] Scenario.fresh_state).2 =
  SourcesListing
    (sources_header ++
     lit "1. policy.md (Relevance: -2700%)" ++ nl ++
     lit "   Employees get 20 days of annual leave...." ++ nl ++ nl).
Proof.
  rewrite (@sources_after_ask Scenario.engines Scenario.llm_down
             (fun d => 100 * d) Scenario.cfg 7 [lit "leave"; lit "days"]
             Scenario.fresh_state Scenario.leave_results _
             ltac:(discriminate)
             (pair_from_fst _ _ ltac:(vm_compute; reflexivity))
             ltac:(discriminate)).
  vm_compute; reflexivity.
Defined.

Lemma snippet_bounds_witness :
  snippet (lit "20 days") = lit "20 days...".
Proof.
  apply (snippet_bounds (lit "20 days")).
  - apply (bool_decide_unpack _). vm_compute; exact I.
  - vm_compute; congruence.
Defined.

End MoreWitnesses.

(** ** The disk and the store when they fail *)

Module OSSpec.
Import Embedder Retriever Handlers Vocabulary Coverage LoadSpec LoadMore
  RetrieverSpec RetrieverMore.

Lemma load_entries_readable files documents :
  OS.load_entries (OS.Readable <$> files) documents =
  Ok (fold_left
        (fun documents f =>
           if glob_md (file_name f)
           then append_chunks f documents (chunk_text_default (file_content f))
           else documents)
        files documents).
Proof.
  revert documents. induction files as [|f files IH]; intros documents; [done|].
  rewrite fmap_cons. cbn [OS.load_entries fold_left].
  unfold OS.load_entry. cbn [OS.entry_name].
  destruct (glob_md (file_name f)); apply IH.
Qed.

(** On a disk whose entries can all be read, the general
    [load_documents] is the one of a readable directory. *)
Lemma load_documents_readable fs data_dir :
  OS.load_documents (OS.readable fs) data_dir = load_documents fs data_dir.
Proof.
  unfold OS.load_documents, OS.readable, load_documents.
  destruct (fs data_dir) as [files|]; simpl; [|done].
  apply load_entries_readable.
Qed.



Section facts.
Context `{Engines}.
Variable max_batch_size : Z.

Lemma collection_add_within_limit ids embeddings documents metadatas c :
  len ids <= max_batch_size ->
  OS.collection_add max_batch_size ids embeddings documents metadatas c =
  collection_add ids embeddings documents metadatas c.
Proof.
  intros Hfit. unfold OS.collection_add, collection_add.
  destruct (bool_decide _); [|done].
  by destruct (Z.gtb_spec (len ids) max_batch_size); [lia|].
Qed.


(** The general [index_documents] agrees with the one of a readable
    directory wherever loading agrees and the batch fits. *)
Lemma index_documents_refines disk fs data_dir force_reindex r :
  OS.load_documents disk data_dir = load_documents fs data_dir ->
  (forall docs, load_documents fs data_dir = Ok docs ->
                len docs <= max_batch_size) ->
  OS.index_documents max_batch_size disk data_dir force_reindex r =
  index_documents fs data_dir force_reindex r.
Proof.
  intros Hload Hfit. unfold OS.index_documents, index_documents.
  rewrite Hload. destruct (_ && _); [done|].
  destruct (load_documents fs data_dir) as [docs|e]; [|done].
  destruct (truthy docs); simpl; [|done].
  rewrite collection_add_within_limit; [done|].
  unfold len. rewrite length_fmap. by apply Hfit.
Qed.


(** Without [force_reindex] a call on a disk either leaves the retriever
    as it was or leaves a non-empty collection, so that a second call
    leaves the entry count as the first left it. *)
Lemma index_documents_disk_idempotent disk data_dir r :
  let r1 := (OS.index_documents max_batch_size disk data_dir false r).2 in
  get_document_count
    (OS.index_documents max_batch_size disk data_dir false r1).2 =
  get_document_count r1.
Proof.
  cbv zeta.
  assert ((OS.index_documents max_batch_size disk data_dir false r).2 = r \/
          0 < count (collection
                 (OS.index_documents max_batch_size disk data_dir false r).2))
    as [E|Hpos].
  { unfold OS.index_documents. simpl.
    destruct (count (collection r) >? 0); [by left|]. simpl.
    destruct (OS.load_documents disk data_dir) as [documents|e]; [|by left].
    destruct (truthy documents) eqn:Ht; [|by left]. simpl.
    destruct (OS.collection_add _ _ _ _ _ _) as [c|e] eqn:Hadd; [|by left].
    right. simpl. unfold OS.collection_add in Hadd.
    destruct (bool_decide _) eqn:Hnd; [|done].
    destruct (_ >? _); [done|].
    eapply collection_add_count; [by apply truthy_true|].
    unfold collection_add. by rewrite Hnd. }
  - by rewrite !E.
  - unfold OS.index_documents at 1.
    by destruct (Z.gtb_spec (count (collection
        (OS.index_documents max_batch_size disk data_dir false r).2)) 0);
      [|lia].
Qed.

(** X7: on an empty index, or with [force_reindex], and a directory
    whose entries can all be read (distinct names, none exactly
    [".md"]): if the number of loaded documents is within the store's
    maximum batch size, [index_documents] returns that number, which is
    then the entry count, every loaded document is stored under its id
    with its content, embedding and metadata, and nothing else is stored
    (a forced rebuild leaves no old entry); if it is above the limit,
    the single [collection.add] is refused with a [ValueError] and the
    index is left empty.  The query cache is untouched in both cases. *)
Theorem index_documents_stores_within_limit
    disk data_dir force_reindex r files :
  get_document_count r = 0 \/ force_reindex = true ->
  disk data_dir = Some (OS.Directory (OS.Readable <$> files)) ->
  NoDup (file_name <$> files) ->
  Forall (fun f => file_name f <> lit ".md") files ->
  let out := OS.index_documents max_batch_size disk data_dir force_reindex r in
  OS.load_documents disk data_dir = Ok (loaded files) /\
  (len (loaded files) <= max_batch_size ->
     out.1 = Ok (len (loaded files)) /\
     get_document_count out.2 = len (loaded files) /\
     (forall doc, doc ∈ loaded files ->
        collection out.2 !! chunk_id doc = Some (entry_of doc)) /\
     (forall id, is_Some (collection out.2 !! id) ->
        id ∈ chunk_id <$> loaded files)) /\
  (0 <= max_batch_size < len (loaded files) ->
     (exists msg, out.1 = Raise (ValueError msg)) /\
     collection out.2 = ∅ /\
     get_document_count out.2 = 0) /\
  query_cache out.2 = query_cache r.
Proof.
  intros Hpre Hd Hnames Hdot. cbv zeta.
  set (fs := fun _ : str => Some files).
  assert (OS.load_documents disk data_dir = load_documents fs data_dir) as Hl.
  { unfold OS.load_documents, load_documents, fs. rewrite Hd.
    apply load_entries_readable. }
  assert (load_documents fs data_dir = Ok (loaded files)) as Hl'
    by (by apply load_documents_loaded).
  destruct (index_documents_start force_reindex r Hpre) as (Hgo & Hc & Hq).
  pose proof (loaded_ids_NoDup files (md_stems_NoDup files Hnames Hdot)) as Hnd.
  split; [by rewrite Hl|]. split; [|split].
  - intros Hfit.
    rewrite (index_documents_refines disk fs data_dir force_reindex r Hl).
    + destruct (index_documents_stores fs data_dir force_reindex r files)
        as (_ & H1 & H2 & H3 & H4 & _); done.
    + intros docs Hdocs. rewrite Hl' in Hdocs. by injection Hdocs as <-.
  - intros [Hmax Hover]. unfold OS.index_documents.
    rewrite Hgo, Hl, Hl'.
    assert (truthy (loaded files) = true) as Ht.
    { apply truthy_true. intros E. rewrite E in Hover.
      unfold len in Hover. simpl in Hover. lia. }
    rewrite Ht. cbn [negb]. cbv iota. unfold OS.collection_add.
    rewrite bool_decide_eq_true_2 by done.
    replace (len (chunk_id <$> loaded files)) with (len (loaded files))
      by (unfold len; by rewrite length_fmap).
    destruct (Z.gtb_spec (len (loaded files)) max_batch_size); [|lia].
    cbn [fst snd]. split; [by eexists|]. split; [exact Hc|].
    unfold get_document_count. by rewrite Hc.
  - unfold OS.index_documents. rewrite Hgo, Hl, Hl'.
    destruct (truthy (loaded files)); simpl; [|done].
    by destruct (OS.collection_add _ _ _ _ _ _).
Qed.

End facts.



Lemma index_documents_stores_within_limit_witness :
  let out := @OS.index_documents Scenario.engines 5461
               (OS.readable Scenario.policy_fs) (lit "data") false
               Scenario.empty_retriever in
  out.1 = Ok 1 /\ get_document_count out.2 = 1.
Proof.
  cbv zeta.
  destruct (@index_documents_stores_within_limit Scenario.engines 5461
              (OS.readable Scenario.policy_fs) (lit "data") false
              Scenario.empty_retriever
              [ {| file_name := lit "policy.md";
                   file_content :=
                     lit "Employees get 20 days of annual leave." |} ])
    as (_ & Hin & _).
  - left. vm_compute; reflexivity.
  - vm_compute; reflexivity.
  - apply NoDup_singleton.
  - apply Forall_singleton. vm_compute; congruence.
  - cbv zeta in Hin. destruct Hin as (H1 & H2 & _); [vm_compute; congruence|].
    rewrite H1, H2. split; vm_compute; reflexivity.
Defined.

End OSSpec.

(** ** Handlers whose reply may not get through *)

Module TransportSpec.
Import Embedder Retriever LLM Bot Vocabulary BotSpec.

Section facts.
Context `{Engines} `{BaseLLM}.

(** With a reply that gets through, the general handlers are the ones
    of Part I; and whether the reply gets through never changes the
    state that the handler leaves. *)
Lemma process_image_delivered user_id args download st :
  Transport.process_image true user_id args download st =
  process_image user_id args download st.
Proof.
  unfold Transport.process_image, process_image.
  destruct download; [|done]. by destruct (describe_image _ _).
Qed.

Lemma process_image_state delivered user_id args download st :
  (Transport.process_image delivered user_id args download st).2 =
  (process_image user_id args download st).2.
Proof.
  unfold Transport.process_image, process_image.
  destruct download; [|done]. destruct (describe_image _ _); [|done].
  by destruct delivered.
Qed.

Lemma ask_delivered cfg user_id args st :
  Transport.ask true cfg user_id args st = ask cfg user_id args st.
Proof.
  unfold Transport.ask, ask. destruct (truthy args); [|done]. simpl.
  destruct (search _ _ _ _) as [[results|e] r]; [|done].
  destruct (truthy results); [|done]. simpl. by destruct (generate _ _).
Qed.

Lemma ask_state delivered cfg user_id args st :
  (Transport.ask delivered cfg user_id args st).2 =
  (ask cfg user_id args st).2.
Proof.
  unfold Transport.ask, ask. destruct (truthy args); [|done]. simpl.
  destruct (search _ _ _ _) as [[results|e] r]; [|done].
  destruct (truthy results); [|done]. simpl. by destruct (generate _ _).
Qed.

(** X15: [process_image] never touches the retriever, the stored sources
    or the history of another user.  When the download or the
    description fails, the reply is the error message and the state is
    exactly as before.  When the description succeeds, exactly one turn,
    with the query ["[Image uploaded]"] and that description, is
    appended to the user's history, whether or not the description can
    then be sent: if sending it fails, the reply is the error message
    although the turn is stored. *)
Theorem process_image_outcomes delivered user_id args download st :
  let out := Transport.process_image delivered user_id args download st in
  let prompt := if truthy args then join (lit " ") args else [] in
  let turn description :=
    {| turn_query := lit "[Image uploaded]";
       turn_answer := description;
       turn_sources := [lit "image_description"] |} in
  retriever out.2 = retriever st /\
  last_sources out.2 = last_sources st /\
  (forall other, other <> user_id ->
     message_history out.2 !! other = message_history st !! other) /\
  (forall e, download = Raise e -> out = (ReplyImageError, st)) /\
  (forall image_bytes e,
     download = Ok image_bytes ->
     describe_image image_bytes prompt = Raise e ->
     out = (ReplyImageError, st)) /\
  (forall image_bytes description,
     download = Ok image_bytes ->
     describe_image image_bytes prompt = Ok description ->
     out.1 = (if delivered then ReplyImage description else ReplyImageError) /\
     history_of user_id out.2 =
       history_of user_id st ++ [turn description]) /\
  (forall description, out.1 = ReplyImage description ->
     history_of user_id out.2 =
       history_of user_id st ++ [turn description]).
Proof.
  cbv zeta. unfold Transport.process_image.
  destruct download as [image_bytes|e0].
  - destruct (describe_image _ _) as [description|e1] eqn:Hd.
    + assert (forall r s,
                history_of user_id
                  {| retriever := r;
                     message_history :=
                       history_append user_id
                         {| turn_query := lit "[Image uploaded]";
                            turn_answer := description;
                            turn_sources := [lit "image_description"] |}
                         (message_history st);
                     last_sources := s |} =
                history_of user_id st ++
                [ {| turn_query := lit "[Image uploaded]";
                     turn_answer := description;
                     turn_sources := [lit "image_description"] |} ])
        as Hh by (intros r s; apply history_of_append).
      destruct delivered; simpl.
      * do 2 (split; [done|]). split.
        { intros other Hne. unfold history_append. by rewrite lookup_insert_ne. }
        split; [done|]. split; [by intros b e [= <-]; rewrite Hd|].
        split.
        { intros b d [= <-]. rewrite Hd. intros [= <-]. split; [done|apply Hh]. }
        intros d [= <-]. apply Hh.
      * do 2 (split; [done|]). split.
        { intros other Hne. unfold history_append. by rewrite lookup_insert_ne. }
        split; [done|]. split; [by intros b e [= <-]; rewrite Hd|].
        split; [|done].
        intros b d [= <-]. rewrite Hd. intros [= <-]. split; [done|apply Hh].
    + do 4 (split; [done|]). split; [done|]. split; [|done].
      intros b d [= <-]. by rewrite Hd.
  - do 3 (split; [done|]). split; [done|]. split; [done|]. by split.
Qed.

End facts.

Lemma process_image_outcomes_witness :
  let out := @Transport.process_image Scenario.engines Scenario.llm_up false
               7 [] (Ok []) Scenario.full_state in
  out.1 = ReplyImageError /\
  history_of 7 out.2 =
    history_of 7 Scenario.full_state ++
    [ {| turn_query := lit "[Image uploaded]";
         turn_answer := lit "A cat.";
         turn_sources := [lit "image_description"] |} ].
Proof.
  cbv zeta.
  destruct (@process_image_outcomes Scenario.engines Scenario.llm_up false
              7 [] (Ok []) Scenario.full_state)
    as (_ & _ & _ & _ & _ & Hok & _).
  cbv zeta in Hok.
  exact (Hok [] (lit "A cat.") eq_refl eq_refl).
Defined.

End TransportSpec.
